(** * hashserver.py: the hash equivalence server, embedded in Rocq

    The server keeps one SQLite table, [tasks_v2], and serves two routes:
    GET /v1/equivalent ([get_equivalent]) and POST /v1/equivalent
    ([post_equivalent]).  The embedding follows the handlers statement by
    statement:

    - a request body or query string is a dictionary from field names to
      strings ([gmap string string]); [data[k]] on an absent key raises
      [KeyError];
    - the table is the list of its rows in rowid order; the two SELECT
      statements filter it, sort the matches with a stable sort on the
      ORDER BY key and keep the first row (LIMIT 1);
    - INSERT enforces the schema of [setup_database]: known columns, the
      NOT NULL columns and UNIQUE(method, outhash, taskhash);
    - every handler runs in a small monad that threads the table, may raise
      a Python exception and logs each statement that reaches the database;
    - [datetime.now()] is an input of the handler (the clock reading [now]).

    Field values are JSON strings, as the interface documents them; the
    [created] column holds the timestamp as an integer (microseconds), whose
    order is the order of the ISO text SQLite compares. *)

From stdpp Require Import gmap strings list fin_maps.
From Stdlib Require Import ZArith Lia.

Local Open Scope Z_scope.

(** ** Data model *)

(** One row of [tasks_v2] (hashserver.py, lines 109-126). *)
Record Row := mkRow {
  rowid : Z;
  method : string;
  outhash : string;
  taskhash : string;
  unihash : string;
  created : Z;
  owner : option string;
  PN : option string;
  PV : option string;
  PR : option string;
  task : option string;
  outhash_siginfo : option string
}.

(** The three columns both SELECT statements return, and the JSON object
    both handlers answer with: [{taskhash, method, unihash}]. *)
Record Equiv := mkEquiv {
  e_taskhash : string;
  e_method : string;
  e_unihash : string
}.

(** A value bound to a named parameter of the INSERT statement. *)
Inductive Value :=
  | Text (s : string)
  | Datetime (t : Z).

(** Python exceptions the handlers can raise. *)
Inductive Exn :=
  | KeyError (k : string)
  | IntegrityError
  | OperationalError.

(** Statements that reach the database, in the order they are executed. *)
Inductive Stmt :=
  | SelectTaskhash (m t : string)
  | SelectOuthash (m h t : string)
  | InsertTask (cols : gmap string Value)
  | Commit.

Inductive Result (A : Type) :=
  | Ok (a : A)
  | Raise (e : Exn).
Arguments Ok {A} a.
Arguments Raise {A} e.

#[global] Instance Row_eq_dec : EqDecision Row.
Proof. solve_decision. Defined.
#[global] Instance Equiv_eq_dec : EqDecision Equiv.
Proof. solve_decision. Defined.

(** ** The database monad: table state, exceptions, statement log *)

Definition DB (A : Type) : Type :=
  list Row → Result A * list Row * list Stmt.

Definition DB_ret {A} (a : A) : DB A := λ tbl, (Ok a, tbl, []).

Definition raise {A} (e : Exn) : DB A := λ tbl, (Raise e, tbl, []).

Definition DB_bind {A B} (k : A → DB B) (c : DB A) : DB B :=
  λ tbl,
    match c tbl with
    | (Ok a, tbl1, log1) =>
        match k a tbl1 with
        | (r, tbl2, log2) => (r, tbl2, log1 ++ log2)
        end
    | (Raise e, tbl1, log1) => (Raise e, tbl1, log1)
    end.

#[global] Instance DB_mret : MRet DB := @DB_ret.
#[global] Instance DB_mbind : MBind DB := @DB_bind.

(** [d[k]] on a Python dict. *)
Definition getitem {V} (d : gmap string V) (k : string) : DB V :=
  match d !! k with
  | Some v => mret v
  | None => raise (KeyError k)
  end.

Definition result_of {A} (o : Result A * list Row * list Stmt) : Result A := o.1.1.
Definition table_of {A} (o : Result A * list Row * list Stmt) : list Row := o.1.2.
Definition log_of {A} (o : Result A * list Row * list Stmt) : list Stmt := o.2.

(** ** SQL: ORDER BY ... LIMIT 1 *)

(** Stable insertion sort on a "less or equal" test. *)
Fixpoint insert_sorted (leb : Row → Row → bool) (r : Row) (l : list Row) : list Row :=
  match l with
  | [] => [r]
  | x :: l' => if leb r x then r :: l else x :: insert_sorted leb r l'
  end.

Definition order_by (leb : Row → Row → bool) (l : list Row) : list Row :=
  foldr (insert_sorted leb) [] l.

(** [ORDER BY created ASC] *)
Definition created_asc (r1 r2 : Row) : bool := created r1 <=? created r2.

(** [CASE WHEN taskhash=:taskhash THEN 1 ELSE 2 END] *)
Definition exact_case (t : string) (r : Row) : Z :=
  if decide (taskhash r = t) then 1 else 2.

(** [ORDER BY CASE WHEN taskhash=:taskhash THEN 1 ELSE 2 END, created ASC] *)
Definition exact_then_created (t : string) (r1 r2 : Row) : bool :=
  (exact_case t r1 <? exact_case t r2)
  || ((exact_case t r1 =? exact_case t r2) && (created r1 <=? created r2)).

(** [SELECT taskhash, method, unihash] *)
Definition project (r : Row) : Equiv :=
  {| e_taskhash := taskhash r; e_method := method r; e_unihash := unihash r |}.

(** [... LIMIT 1]: the cursor holds at most one row. *)
Definition limit1 (l : list Row) : list Equiv := project <$> take 1 l.

(** [cursor.fetchone()] *)
Definition fetchone (cursor : list Equiv) : option Equiv := head cursor.

(** The query of [get_equivalent] (line 25). *)
Definition select_taskhash (m t : string) (tbl : list Row) : list Row :=
  order_by created_asc (filter (λ r, method r = m ∧ taskhash r = t) tbl).

(** The query of [post_equivalent] (lines 43-56). *)
Definition select_outhash (m h t : string) (tbl : list Row) : list Row :=
  order_by (exact_then_created t) (filter (λ r, method r = m ∧ outhash r = h) tbl).

Definition execute_select_taskhash (m t : string) : DB (list Equiv) :=
  λ tbl, (Ok (limit1 (select_taskhash m t tbl)), tbl, [SelectTaskhash m t]).

Definition execute_select_outhash (m h t : string) : DB (list Equiv) :=
  λ tbl, (Ok (limit1 (select_outhash m h t tbl)), tbl, [SelectOuthash m h t]).

(** ** SQL: INSERT INTO tasks_v2 *)

(** The columns of [tasks_v2] an INSERT may name. *)
Definition columns : gset string :=
  {[ "id"; "method"; "outhash"; "taskhash"; "unihash"; "created";
     "owner"; "PN"; "PV"; "PR"; "task"; "outhash_siginfo" ]}.

Definition text_col (cols : gmap string Value) (k : string) : option string :=
  match cols !! k with
  | Some (Text s) => Some s
  | _ => None
  end.

Definition time_col (cols : gmap string Value) (k : string) : option Z :=
  match cols !! k with
  | Some (Datetime t) => Some t
  | _ => None
  end.

(** [id INTEGER PRIMARY KEY AUTOINCREMENT]: one more than the largest rowid. *)
Definition next_rowid (tbl : list Row) : Z :=
  1 + foldr (λ r acc, Z.max (rowid r) acc) 0 tbl.

(** The row an INSERT builds.  The four NOT NULL columns must be bound;
    [created] is bound by every INSERT of this server (line 76), and the
    model has no NULL timestamp; every other column defaults to NULL. *)
Definition row_of (i : Z) (cols : gmap string Value) : option Row :=
  m ← text_col cols "method";
  h ← text_col cols "outhash";
  t ← text_col cols "taskhash";
  u ← text_col cols "unihash";
  c ← time_col cols "created";
  Some {| rowid := i; method := m; outhash := h; taskhash := t; unihash := u;
          created := c;
          owner := text_col cols "owner"; PN := text_col cols "PN";
          PV := text_col cols "PV"; PR := text_col cols "PR";
          task := text_col cols "task";
          outhash_siginfo := text_col cols "outhash_siginfo" |}.

(** [UNIQUE(method, outhash, taskhash)] *)
Definition same_triple (r1 r2 : Row) : Prop :=
  method r1 = method r2 ∧ outhash r1 = outhash r2 ∧ taskhash r1 = taskhash r2.

#[global] Instance same_triple_dec r1 r2 : Decision (same_triple r1 r2).
Proof. unfold same_triple. apply _. Defined.

Definition execute_insert (cols : gmap string Value) : DB unit :=
  λ tbl,
    if decide (dom cols ⊆ columns) then
      match row_of (next_rowid tbl) cols with
      | Some r =>
          if decide (Exists (same_triple r) tbl)
          then (Raise IntegrityError, tbl, [InsertTask cols])
          else (Ok tt, tbl ++ [r], [InsertTask cols])
      | None => (Raise IntegrityError, tbl, [InsertTask cols])
      end
    else (Raise OperationalError, tbl, [InsertTask cols]).

(** [db.commit()] *)
Definition commit : DB unit := λ tbl, (Ok tt, tbl, [Commit]).

(** ** The handlers *)

(** [get_equivalent] (lines 17-34): [None] is the JSON [null] answer. *)
Definition get_equivalent (query : gmap string string) : DB (option Equiv) :=
  m ← getitem query "method";
  t ← getitem query "taskhash";
  cursor ← execute_select_taskhash m t;
  mret (fetchone cursor).

(** The loop of lines 79-81. *)
Definition optional_keys : list string :=
  ["owner"; "PN"; "PV"; "PR"; "task"; "outhash_siginfo"].

Definition copy_optional (data : gmap string string)
    (insert_data : gmap string Value) : gmap string Value :=
  foldl (λ ins k,
           match data !! k with
           | Some v => <[k := Text v]> ins
           | None => ins
           end) insert_data optional_keys.

(** Lines 64-96 of [post_equivalent]: a new entry for this taskhash is
    added; [row] is the row matching the outhash, when one was found. *)
Definition add_entry (data : gmap string string)
    (row : option Equiv) (now : Z) : DB Equiv :=
  u ← getitem data "unihash";
  let unihash := match row with Some r => e_unihash r | None => u end in
  m ← getitem data "method";
  h ← getitem data "outhash";
  t ← getitem data "taskhash";
  let insert_data : gmap string Value :=
    {[ "method" := Text m; "outhash" := Text h; "taskhash" := Text t;
       "unihash" := Text unihash; "created" := Datetime now ]} in
  let insert_data := copy_optional data insert_data in
  execute_insert insert_data;;
  commit;;
  t ← getitem data "taskhash";
  m ← getitem data "method";
  mret {| e_taskhash := t; e_method := m; e_unihash := unihash |}.

(** [post_equivalent] from line 63 on: what the handler does with the row
    [fetchone] gave it.  The handler awaits between the SELECT and the
    INSERT, so the table this part runs on is the table at that later
    moment.  The test of line 63 is a short-circuit [or]. *)
Definition post_equivalent_after_fetch (data : gmap string string)
    (row : option Equiv) (now : Z) : DB Equiv :=
  match row with
  | None => add_entry data None now
  | Some r =>
      t ← getitem data "taskhash";
      if decide (e_taskhash r ≠ t) then add_entry data (Some r) now
      else mret r
  end.

(** Lines 42-58 of [post_equivalent]: the SELECT and [fetchone]. *)
Definition post_equivalent_fetch (data : gmap string string) : DB (option Equiv) :=
  m ← getitem data "method";
  h ← getitem data "outhash";
  t ← getitem data "taskhash";
  cursor ← execute_select_outhash m h t;
  mret (fetchone cursor).

(** [post_equivalent] (lines 37-100). *)
Definition post_equivalent (data : gmap string string) (now : Z) : DB Equiv :=
  row ← post_equivalent_fetch data;
  post_equivalent_after_fetch data row now.

(** The server's routes ([main], lines 156-157) and a sequential run of
    requests: each handler runs to completion before the next starts; a
    request that raises leaves the table as the handler left it. *)
Inductive Request :=
  | GET (query : gmap string string)
  | POST (data : gmap string string) (now : Z).

Definition serve (req : Request) (tbl : list Row) : list Row :=
  match req with
  | GET query => table_of (get_equivalent query tbl)
  | POST data now => table_of (post_equivalent data now tbl)
  end.

Definition run (reqs : list Request) (tbl : list Row) : list Row :=
  foldl (λ tbl req, serve req tbl) tbl reqs.

(** Table states the server can reach from the empty table. *)
Inductive reachable : list Row → Prop :=
  | reachable_empty : reachable []
  | reachable_serve req tbl : reachable tbl → reachable (serve req tbl).

(** ** Predicates of the specification *)

(** The record belongs to the equivalence class [(m, h)]. *)
Definition in_class (m h : string) (r : Row) : Prop :=
  method r = m ∧ outhash r = h.

(** The record is the observation [(m, h, t)]. *)
Definition is_triple (m h t : string) (r : Row) : Prop :=
  method r = m ∧ outhash r = h ∧ taskhash r = t.

(** [r] is an earliest-created record among those of [tbl] satisfying [P]. *)
Definition earliest (P : Row → Prop) (tbl : list Row) (r : Row) : Prop :=
  r ∈ tbl ∧ P r ∧ ∀ r', r' ∈ tbl → P r' → created r ≤ created r'.

(** At most one record per [(method, outhash, taskhash)]. *)
Definition unique_triples (tbl : list Row) : Prop :=
  ∀ i j r1 r2, tbl !! i = Some r1 → tbl !! j = Some r2 →
    same_triple r1 r2 → i = j.

(** All records of a class share one unihash. *)
Definition converged (tbl : list Row) : Prop :=
  ∀ r1 r2, r1 ∈ tbl → r2 ∈ tbl →
    method r1 = method r2 → outhash r1 = outhash r2 → unihash r1 = unihash r2.

(** The candidate of the merge: the first row of the handler's SELECT. *)
Definition candidate (m h t : string) (tbl : list Row) : option Row :=
  head (select_outhash m h t tbl).

(** The row an insert of [post_equivalent] appends. *)
Definition new_row (data : gmap string string) (now : Z) (tbl : list Row)
    (m h t u : string) : Row :=
  {| rowid := next_rowid tbl; method := m; outhash := h; taskhash := t;
     unihash := u; created := now;
     owner := data !! "owner"; PN := data !! "PN"; PV := data !! "PV";
     PR := data !! "PR"; task := data !! "task";
     outhash_siginfo := data !! "outhash_siginfo" |}.

(** The dictionary [insert_data] of lines 71-81. *)
Definition insert_data_of (data : gmap string string) (now : Z)
    (m h t u : string) : gmap string Value :=
  copy_optional data
    {[ "method" := Text m; "outhash" := Text h; "taskhash" := Text t;
       "unihash" := Text u; "created" := Datetime now ]}.

(** The unihash line 67-69 picks: the found row's, else the caller's. *)
Definition inherited (row : option Equiv) (u : string) : string :=
  match row with
  | Some r => e_unihash r
  | None => u
  end.

(** The outcomes of [post_equivalent], case by case: a missing key, an
    exact match (case C), an inherited unihash (case B), a fresh class
    (case A). *)
Inductive merge_outcome (data : gmap string string) (now : Z) (tbl : list Row) :
    Result Equiv * list Row * list Stmt → Prop :=
  | outcome_key_error k :
      k ∈ ["method"; "outhash"; "taskhash"] → data !! k = None →
      merge_outcome data now tbl (Raise (KeyError k), tbl, [])
  | outcome_no_unihash m h t :
      data !! "method" = Some m → data !! "outhash" = Some h →
      data !! "taskhash" = Some t → data !! "unihash" = None →
      (∀ x, x ∈ tbl → ¬ is_triple m h t x) →
      merge_outcome data now tbl
        (Raise (KeyError "unihash"), tbl, [SelectOuthash m h t])
  | outcome_exact m h t r :
      data !! "method" = Some m → data !! "outhash" = Some h →
      data !! "taskhash" = Some t →
      candidate m h t tbl = Some r → taskhash r = t →
      merge_outcome data now tbl (Ok (project r), tbl, [SelectOuthash m h t])
  | outcome_inherit m h t u c :
      data !! "method" = Some m → data !! "outhash" = Some h →
      data !! "taskhash" = Some t → data !! "unihash" = Some u →
      candidate m h t tbl = Some c → taskhash c ≠ t →
      merge_outcome data now tbl
        (Ok {| e_taskhash := t; e_method := m; e_unihash := unihash c |},
         tbl ++ [new_row data now tbl m h t (unihash c)],
         [SelectOuthash m h t;
          InsertTask (insert_data_of data now m h t (unihash c)); Commit])
  | outcome_fresh m h t u :
      data !! "method" = Some m → data !! "outhash" = Some h →
      data !! "taskhash" = Some t → data !! "unihash" = Some u →
      candidate m h t tbl = None →
      merge_outcome data now tbl
        (Ok {| e_taskhash := t; e_method := m; e_unihash := u |},
         tbl ++ [new_row data now tbl m h t u],
         [SelectOuthash m h t;
          InsertTask (insert_data_of data now m h t u); Commit]).

(** A handler that leaves the table as it found it. *)
Definition readonly {A} (c : DB A) : Prop :=
  ∀ tbl, table_of (c tbl) = tbl.

(** A handler that at most appends one row. *)
Definition appends {A} (c : DB A) : Prop :=
  ∀ tbl, table_of (c tbl) = tbl ∨ ∃ r, table_of (c tbl) = tbl ++ [r].

(** [UPDATE tasks_v2 SET outhash = ...] on one row, to compare tables that
    differ in outhashes only. *)
Definition set_outhash (h : string) (r : Row) : Row :=
  {| rowid := rowid r; method := method r; outhash := h;
     taskhash := taskhash r; unihash := unihash r; created := created r;
     owner := owner r; PN := PN r; PV := PV r; PR := PR r; task := task r;
     outhash_siginfo := outhash_siginfo r |}.

(** Concrete requests and tables used in the examples below. *)
Definition post1 : gmap string string :=
  {[ "method" := "m"; "outhash" := "h"; "taskhash" := "t1"; "unihash" := "u1";
     "owner" := "alice"; "extra" := "dropped" ]}.

Definition post2 : gmap string string :=
  {[ "method" := "m"; "outhash" := "h"; "taskhash" := "t2"; "unihash" := "u2" ]}.

Definition post3 : gmap string string :=
  {[ "method" := "m"; "outhash" := "h2"; "taskhash" := "t1"; "unihash" := "u3" ]}.

Definition query1 : gmap string string :=
  {[ "method" := "m"; "taskhash" := "t1" ]}.

Definition table1 : list Row := run [POST post1 10] [].
Definition table2 : list Row := run [POST post1 10; POST post2 20] [].
Definition table3 : list Row := run [POST post1 10; POST post3 30] [].

(** The lookup answers with a record whose unihash is [u]. *)
Definition resolves_to (query : gmap string string) (tbl : list Row)
    (u : string) : Prop :=
  ∃ e, result_of (get_equivalent query tbl) = Ok (Some e) ∧ e_unihash e = u.

(** The write call is rejected with no statement sent to the database and
    the table untouched. *)
Definition rejected_before_store (data : gmap string string) (now : Z)
    (tbl : list Row) : Prop :=
  ∃ e, post_equivalent data now tbl = (Raise e, tbl, []).

(** The fields a write call must carry. *)
Definition required_keys : list string :=
  ["method"; "outhash"; "taskhash"; "unihash"].

Definition query2 : gmap string string :=
  {[ "method" := "m"; "taskhash" := "t2" ]}.

Ltac db_unfold :=
  unfold post_equivalent_fetch in *;
  unfold mbind, mret, DB_mbind, DB_mret, DB_bind, DB_ret, getitem, raise,
    commit, execute_select_outhash, execute_select_taskhash in *.

(** ** Interleaved service *)

(** Tables the server can reach when POST handlers interleave at the awaits
    between [fetchone] (line 58) and the INSERT (line 83).  A handler
    fetches on the table of that moment and is then pending with the row it
    fetched; a pending handler resumes, at any later moment, on the table
    of that moment.  The second index lists the pending handlers. *)
Inductive interleaved :
    list Row → list (gmap string string * option Equiv) → Prop :=
  | interleaved_start : interleaved [] []
  | interleaved_fetch tbl pending data row log :
      interleaved tbl pending →
      post_equivalent_fetch data tbl = (Ok row, tbl, log) →
      interleaved tbl ((data, row) :: pending)
  | interleaved_resume tbl pending1 pending2 data row now :
      interleaved tbl (pending1 ++ (data, row) :: pending2) →
      interleaved (table_of (post_equivalent_after_fetch data row now tbl))
        (pending1 ++ pending2).

(** The clock moves forward over a run: every POST reads a time later than
    the [created] of any row the table holds by then. *)
Fixpoint monotone_clock (tbl : list Row) (reqs : list Request) : Prop :=
  match reqs with
  | [] => True
  | req :: reqs' =>
      match req with
      | POST _ now => ∀ x, x ∈ tbl → created x < now
      | GET _ => True
      end ∧ monotone_clock (serve req tbl) reqs'
  end.

(** * Properties *)

(** ** Sorting: the first row of ORDER BY is a least row *)

Section order_by.
Variable leb : Row → Row → bool.
Hypothesis leb_total : ∀ x y, leb x y = true ∨ leb y x = true.
Hypothesis leb_trans : ∀ x y z, leb x y = true → leb y z = true → leb x z = true.

Lemma head_insert_sorted r l :
  head (insert_sorted leb r l) =
    match head l with
    | Some x => if leb r x then Some r else Some x
    | None => Some r
    end.
Proof. destruct l as [|x l]; simpl; [done|]. by destruct (leb r x). Qed.

Lemma order_by_nil l : order_by leb l = [] → l = [].
Proof.
  destruct l as [|a l]; [done|]. simpl. intros H.
  apply (f_equal head) in H. rewrite head_insert_sorted in H.
  repeat case_match; discriminate.
Qed.

Lemma order_by_head l r :
  head (order_by leb l) = Some r →
  r ∈ l ∧ ∀ x, x ∈ l → leb r x = true.
Proof using leb_total leb_trans.
  revert r. induction l as [|a l IH]; intros r; simpl; [done|].
  rewrite head_insert_sorted.
  destruct (head (order_by leb l)) as [y|] eqn:Hy.
  - destruct (IH y eq_refl) as [Hin Hmin].
    destruct (leb a y) eqn:Hay; intros [= <-].
    + split; [left|]. intros x [->|Hx]%elem_of_cons.
      * by destruct (leb_total a a).
      * eauto.
    + split; [by right|]. intros x [->|Hx]%elem_of_cons; [|eauto].
      destruct (leb_total a y); congruence.
  - intros [= <-]. split; [left|].
    assert (l = []) as ->.
    { apply order_by_nil. by destruct (order_by leb l). }
    intros x ->%list_elem_of_singleton. by destruct (leb_total a a).
Qed.

Lemma order_by_head_None l : head (order_by leb l) = None → l = [].
Proof. intros H. apply order_by_nil. by destruct (order_by leb l). Qed.
End order_by.

(** ** The two ORDER BY keys are total preorders *)

Lemma created_asc_total x y : created_asc x y = true ∨ created_asc y x = true.
Proof.
  unfold created_asc.
  destruct (Z.leb_spec (created x) (created y)); [by left|right].
  apply Z.leb_le. lia.
Qed.

Lemma created_asc_trans x y z :
  created_asc x y = true → created_asc y z = true → created_asc x z = true.
Proof. unfold created_asc. rewrite !Z.leb_le. lia. Qed.

Lemma exact_then_created_spec t x y :
  exact_then_created t x y = true ↔
  exact_case t x < exact_case t y
  ∨ (exact_case t x = exact_case t y ∧ created x ≤ created y).
Proof.
  unfold exact_then_created.
  rewrite orb_true_iff, andb_true_iff, Z.ltb_lt, Z.eqb_eq, Z.leb_le. tauto.
Qed.

Lemma exact_then_created_total t x y :
  exact_then_created t x y = true ∨ exact_then_created t y x = true.
Proof. rewrite !exact_then_created_spec. lia. Qed.

Lemma exact_then_created_trans t x y z :
  exact_then_created t x y = true → exact_then_created t y z = true →
  exact_then_created t x z = true.
Proof. rewrite !exact_then_created_spec. lia. Qed.

Lemma exact_case_1 t r : exact_case t r = 1 ↔ taskhash r = t.
Proof. unfold exact_case. case_decide; split; (done || lia). Qed.

Lemma exact_case_2 t r : exact_case t r = 2 ↔ taskhash r ≠ t.
Proof. unfold exact_case. case_decide; split; (done || lia). Qed.

Lemma fetchone_limit1 l : fetchone (limit1 l) = project <$> head l.
Proof. by destruct l. Qed.

(** ** The candidate of a merge *)

Lemma candidate_None m h t tbl :
  candidate m h t tbl = None → ∀ r, r ∈ tbl → ¬ in_class m h r.
Proof.
  unfold candidate, select_outhash. intros H%order_by_head_None r Hr Hc.
  exact (filter_nil_not_elem_of (λ r, method r = m ∧ outhash r = h) tbl r H Hc Hr).
Qed.

Lemma candidate_Some m h t tbl r :
  candidate m h t tbl = Some r →
  r ∈ tbl ∧ in_class m h r ∧
  ∀ x, x ∈ tbl → in_class m h x → exact_then_created t r x = true.
Proof.
  unfold candidate, select_outhash. intros H.
  apply order_by_head in H as [Hin Hmin];
    [|apply exact_then_created_total|apply exact_then_created_trans].
  apply list_elem_of_filter in Hin as [Hc Hin]. split_and!; [done..|].
  intros x Hx Hxc. apply Hmin, list_elem_of_filter. done.
Qed.

Lemma candidate_is_Some m h t tbl x :
  x ∈ tbl → in_class m h x → is_Some (candidate m h t tbl).
Proof.
  intros Hx Hc. destruct (candidate m h t tbl) eqn:E; [eauto|].
  by destruct (candidate_None _ _ _ _ E x Hx).
Qed.

(** An exact match, when the class has one, is the candidate: the earliest
    created among the exact matches. *)
Lemma candidate_exact m h t tbl r :
  candidate m h t tbl = Some r → taskhash r = t →
  earliest (is_triple m h t) tbl r.
Proof.
  intros (Hin & [Hm Hh] & Hmin)%candidate_Some Ht. split_and!; [done..|].
  intros x Hx (Hxm & Hxh & Hxt).
  specialize (Hmin x Hx (conj Hxm Hxh)).
  apply exact_then_created_spec in Hmin.
  apply exact_case_1 in Ht, Hxt. lia.
Qed.

(** A candidate of another taskhash means the class has no exact match, and
    the candidate is the earliest created record of the class. *)
Lemma candidate_other m h t tbl r :
  candidate m h t tbl = Some r → taskhash r ≠ t →
  earliest (in_class m h) tbl r ∧ ∀ x, x ∈ tbl → ¬ is_triple m h t x.
Proof.
  intros (Hin & Hc & Hmin)%candidate_Some Ht.
  apply exact_case_2 in Ht. split; [split_and!; [done..|]|].
  - intros x Hx Hxc. specialize (Hmin x Hx Hxc).
    apply exact_then_created_spec in Hmin.
    assert (exact_case t x = 1 ∨ exact_case t x = 2)
      by (unfold exact_case; case_decide; lia).
    lia.
  - intros x Hx (Hxm & Hxh & Hxt). specialize (Hmin x Hx (conj Hxm Hxh)).
    apply exact_then_created_spec in Hmin. apply exact_case_1 in Hxt. lia.
Qed.

Lemma candidate_of_triple m h t tbl x :
  x ∈ tbl → is_triple m h t x →
  ∃ r, candidate m h t tbl = Some r ∧ taskhash r = t.
Proof.
  intros Hx Hxt.
  destruct (candidate_is_Some m h t tbl x Hx) as [r Hr].
  { destruct Hxt as (? & ? & ?). by split. }
  exists r. split; [done|].
  destruct (decide (taskhash r = t)) as [|Hne]; [done|].
  destruct (candidate_other _ _ _ _ _ Hr Hne) as [_ Hno]. by destruct (Hno x Hx).
Qed.

(** ** The INSERT of [post_equivalent] *)

Lemma copy_optional_lookup data ins k :
  copy_optional data ins !! k =
    if decide (k ∈ optional_keys) then
      match data !! k with
      | Some v => Some (Text v)
      | None => ins !! k
      end
    else ins !! k.
Proof.
  unfold copy_optional. generalize optional_keys as ks. intros ks.
  revert ins. induction ks as [|a ks IH]; intros ins; cbn [foldl].
  - by rewrite decide_False by apply not_elem_of_nil.
  - rewrite IH. destruct (decide (k = a)) as [->|Hne].
    + rewrite (decide_True (P := a ∈ a :: ks)) by left.
      destruct (data !! a) eqn:Ha; rewrite ?lookup_insert_eq;
        by case_decide.
    + assert (k ∈ a :: ks ↔ k ∈ ks) as Hiff.
      { rewrite elem_of_cons. split; [by intros [?|?]|by right]. }
      destruct (data !! a) eqn:Ha; rewrite ?lookup_insert_ne by done;
        destruct (decide (k ∈ a :: ks)), (decide (k ∈ ks)); tauto.
Qed.

Lemma insert_data_required data now m h t u :
  text_col (insert_data_of data now m h t u) "method" = Some m ∧
  text_col (insert_data_of data now m h t u) "outhash" = Some h ∧
  text_col (insert_data_of data now m h t u) "taskhash" = Some t ∧
  text_col (insert_data_of data now m h t u) "unihash" = Some u ∧
  time_col (insert_data_of data now m h t u) "created" = Some now.
Proof.
  unfold text_col, time_col, insert_data_of.
  rewrite !copy_optional_lookup.
  rewrite !decide_False by compute_done.
  by simplify_map_eq.
Qed.

Lemma insert_data_optional data now m h t u k :
  k ∈ optional_keys →
  text_col (insert_data_of data now m h t u) k = data !! k.
Proof.
  intros Hk. unfold text_col, insert_data_of.
  rewrite copy_optional_lookup, decide_True by done.
  destruct (data !! k); [done|].
  unfold optional_keys in Hk. set_unfold. by destruct_or!; subst.
Qed.

Lemma insert_data_columns data now m h t u :
  dom (insert_data_of data now m h t u) ⊆ columns.
Proof.
  intros k [v Hv]%elem_of_dom. unfold insert_data_of in Hv.
  rewrite copy_optional_lookup in Hv. case_decide as Hk.
  - clear Hv. unfold optional_keys in Hk. unfold columns.
    set_unfold. destruct_or!; subst; tauto.
  - clear Hk. assert (is_Some (({[ "method" := Text m; "outhash" := Text h;
      "taskhash" := Text t; "unihash" := Text u; "created" := Datetime now ]}
      : gmap string Value) !! k)) as Hd by eauto.
    apply elem_of_dom in Hd. rewrite !dom_insert_L, dom_singleton_L in Hd.
    unfold columns. set_unfold. tauto.
Qed.

Lemma row_of_insert_data i data now m h t u :
  row_of i (insert_data_of data now m h t u) =
    Some {| rowid := i; method := m; outhash := h; taskhash := t;
            unihash := u; created := now;
            owner := data !! "owner"; PN := data !! "PN"; PV := data !! "PV";
            PR := data !! "PR"; task := data !! "task";
            outhash_siginfo := data !! "outhash_siginfo" |}.
Proof.
  unfold row_of.
  destruct (insert_data_required data now m h t u) as (-> & -> & -> & -> & ->).
  simpl. rewrite !insert_data_optional by compute_done. done.
Qed.

Lemma execute_insert_run data now m h t u tbl :
  execute_insert (insert_data_of data now m h t u) tbl =
    if decide (Exists (same_triple (new_row data now tbl m h t u)) tbl)
    then (Raise IntegrityError, tbl, [InsertTask (insert_data_of data now m h t u)])
    else (Ok (), tbl ++ [new_row data now tbl m h t u],
          [InsertTask (insert_data_of data now m h t u)]).
Proof.
  unfold execute_insert.
  rewrite decide_True by apply insert_data_columns.
  by rewrite row_of_insert_data.
Qed.

Lemma Exists_same_triple data now tbl m h t u :
  Exists (same_triple (new_row data now tbl m h t u)) tbl ↔
  ∃ x, x ∈ tbl ∧ is_triple m h t x.
Proof.
  rewrite Exists_exists. unfold same_triple, is_triple. simpl.
  split; intros (x & Hx & ? & ? & ?); exists x; by split_and!.
Qed.

(** ** What the handlers compute *)

Section post_equivalent_run.
Context (data : gmap string string) (now : Z) (tbl : list Row).
Context (m h t : string).
Hypothesis Hm : data !! "method" = Some m.
Hypothesis Hh : data !! "outhash" = Some h.
Hypothesis Ht : data !! "taskhash" = Some t.

Lemma add_entry_run row u :
  data !! "unihash" = Some u →
  add_entry data row now tbl =
    let uni := inherited row u in
    if decide (Exists (same_triple (new_row data now tbl m h t uni)) tbl)
    then (Raise IntegrityError, tbl,
          [InsertTask (insert_data_of data now m h t uni)])
    else (Ok {| e_taskhash := t; e_method := m; e_unihash := uni |},
          tbl ++ [new_row data now tbl m h t uni],
          [InsertTask (insert_data_of data now m h t uni); Commit]).
Proof using Hm Hh Ht.
  intros Hu. unfold add_entry. db_unfold. rewrite Hu, Hm, Hh, Ht. simpl.
  fold (inherited row u).
  fold (insert_data_of data now m h t (inherited row u)).
  rewrite execute_insert_run. by case_decide.
Qed.

Lemma add_entry_no_unihash row :
  data !! "unihash" = None →
  add_entry data row now tbl = (Raise (KeyError "unihash"), tbl, []).
Proof. intros Hu. unfold add_entry. db_unfold. by rewrite Hu. Qed.

Lemma post_equivalent_run :
  post_equivalent data now tbl =
    let o := post_equivalent_after_fetch data
               (project <$> candidate m h t tbl) now tbl in
    (result_of o, table_of o, SelectOuthash m h t :: log_of o).
Proof using Hm Hh Ht.
  unfold post_equivalent. db_unfold. rewrite Hm, Hh, Ht. simpl.
  rewrite fetchone_limit1. fold (candidate m h t tbl).
  by destruct (post_equivalent_after_fetch _ _ _ _) as [[? ?] ?].
Qed.

(** Case C: the candidate is an exact match. *)
Lemma post_equivalent_exact r :
  candidate m h t tbl = Some r → taskhash r = t →
  post_equivalent data now tbl = (Ok (project r), tbl, [SelectOuthash m h t]).
Proof using Hm Hh Ht.
  intros Hc Hr. rewrite post_equivalent_run, Hc. simpl.
  db_unfold. rewrite Ht. simpl. by rewrite decide_False by tauto.
Qed.

(** Cases A and B: no exact match, so a row is inserted. *)
Lemma post_equivalent_insert u :
  data !! "unihash" = Some u →
  (∀ r, candidate m h t tbl = Some r → taskhash r ≠ t) →
  let uni := inherited (project <$> candidate m h t tbl) u in
  post_equivalent data now tbl =
    (Ok {| e_taskhash := t; e_method := m; e_unihash := uni |},
     tbl ++ [new_row data now tbl m h t uni],
     [SelectOuthash m h t;
      InsertTask (insert_data_of data now m h t uni); Commit]).
Proof using Hm Hh Ht.
  intros Hu Hne. rewrite post_equivalent_run.
  assert (∀ u', ¬ Exists (same_triple (new_row data now tbl m h t u')) tbl)
    as Hfresh.
  { intros u' (x & Hx & Hxt)%Exists_same_triple.
    destruct (candidate_of_triple _ _ _ _ _ Hx Hxt) as (r & Hr & Hrt).
    by apply (Hne r). }
  destruct (candidate m h t tbl) as [r|] eqn:Hc; simpl.
  - db_unfold. rewrite Ht. simpl.
    rewrite decide_True by (by apply Hne).
    rewrite (add_entry_run _ u Hu). simpl.
    by rewrite decide_False by apply Hfresh.
  - rewrite (add_entry_run _ u Hu). simpl.
    by rewrite decide_False by apply Hfresh.
Qed.

Lemma post_equivalent_no_unihash :
  data !! "unihash" = None →
  (∀ r, candidate m h t tbl = Some r → taskhash r ≠ t) →
  post_equivalent data now tbl =
    (Raise (KeyError "unihash"), tbl, [SelectOuthash m h t]).
Proof using Hm Hh Ht.
  intros Hu Hne. rewrite post_equivalent_run.
  destruct (candidate m h t tbl) as [r|] eqn:Hc; simpl.
  - db_unfold. rewrite Ht. simpl.
    rewrite decide_True by (by apply Hne).
    by rewrite add_entry_no_unihash.
  - by rewrite add_entry_no_unihash.
Qed.
End post_equivalent_run.

(** [post_equivalent] always ends in one of the five outcomes. *)
Lemma post_equivalent_outcome data now tbl :
  merge_outcome data now tbl (post_equivalent data now tbl).
Proof.
  destruct (data !! "method") as [m|] eqn:Hm; cycle 1.
  { unfold post_equivalent. db_unfold. rewrite Hm.
    apply outcome_key_error; [set_solver|done]. }
  destruct (data !! "outhash") as [h|] eqn:Hh; cycle 1.
  { unfold post_equivalent. db_unfold. rewrite Hm, Hh.
    apply outcome_key_error; [set_solver|done]. }
  destruct (data !! "taskhash") as [t|] eqn:Ht; cycle 1.
  { unfold post_equivalent. db_unfold. rewrite Hm, Hh, Ht.
    apply outcome_key_error; [set_solver|done]. }
  destruct (candidate m h t tbl) as [c|] eqn:Hc.
  - destruct (decide (taskhash c = t)) as [Heq|Hne].
    { rewrite (post_equivalent_exact data now tbl m h t Hm Hh Ht c Hc Heq).
      by eapply outcome_exact. }
    assert (∀ r, candidate m h t tbl = Some r → taskhash r ≠ t) as Hall
      by (intros r; rewrite Hc; by intros [= <-]).
    destruct (data !! "unihash") as [u|] eqn:Hu.
    + rewrite (post_equivalent_insert data now tbl m h t Hm Hh Ht u Hu Hall).
      rewrite Hc. simpl. by eapply outcome_inherit.
    + rewrite (post_equivalent_no_unihash data now tbl m h t Hm Hh Ht Hu Hall).
      apply outcome_no_unihash; try done.
      by destruct (candidate_other _ _ _ _ _ Hc Hne).
  - assert (∀ r, candidate m h t tbl = Some r → taskhash r ≠ t) as Hall
      by (intros r; by rewrite Hc).
    destruct (data !! "unihash") as [u|] eqn:Hu.
    + rewrite (post_equivalent_insert data now tbl m h t Hm Hh Ht u Hu Hall).
      rewrite Hc. simpl. by eapply outcome_fresh.
    + rewrite (post_equivalent_no_unihash data now tbl m h t Hm Hh Ht Hu Hall).
      apply outcome_no_unihash; try done.
      intros x Hx (? & ? & _). by eapply candidate_None.
Qed.

Lemma get_equivalent_run query tbl m t :
  query !! "method" = Some m → query !! "taskhash" = Some t →
  get_equivalent query tbl =
    (Ok (project <$> head (select_taskhash m t tbl)), tbl, [SelectTaskhash m t]).
Proof.
  intros Hm Ht. unfold get_equivalent. db_unfold. rewrite Hm, Ht. simpl.
  by rewrite fetchone_limit1.
Qed.

(** ** Frame: what a handler may do to the table *)

Lemma readonly_appends {A} (c : DB A) : readonly c → appends c.
Proof. intros H tbl. left. apply H. Qed.

Lemma readonly_bind {A B} (c : DB A) (k : A → DB B) :
  readonly c → (∀ a, readonly (k a)) → readonly (c ≫= k).
Proof.
  intros Hc Hk tbl. specialize (Hc tbl). db_unfold. unfold table_of in *.
  destruct (c tbl) as [[[a|e] tbl1] log1]; simpl in *; subst; [|done].
  specialize (Hk a tbl). by destruct (k a tbl) as [[? ?] ?].
Qed.

Lemma appends_bind_l {A B} (c : DB A) (k : A → DB B) :
  readonly c → (∀ a, appends (k a)) → appends (c ≫= k).
Proof.
  intros Hc Hk tbl. specialize (Hc tbl). db_unfold. unfold table_of in *.
  destruct (c tbl) as [[[a|e] tbl1] log1]; simpl in *; subst; [|by left].
  specialize (Hk a tbl). by destruct (k a tbl) as [[? ?] ?].
Qed.

Lemma appends_bind_r {A B} (c : DB A) (k : A → DB B) :
  appends c → (∀ a, readonly (k a)) → appends (c ≫= k).
Proof.
  intros Hc Hk tbl. specialize (Hc tbl). db_unfold. unfold table_of in *.
  destruct (c tbl) as [[[a|e] tbl1] log1]; simpl in *; [|done].
  specialize (Hk a tbl1). destruct (k a tbl1) as [[? ?] ?]; simpl in *.
  by subst.
Qed.

Lemma readonly_getitem {V} (d : gmap string V) k : readonly (getitem d k).
Proof. intros tbl. unfold getitem. by destruct (d !! k). Qed.

Lemma readonly_mret {A} (a : A) : readonly (mret a).
Proof. done. Qed.

Lemma appends_execute_insert cols : appends (execute_insert cols).
Proof.
  intros tbl. unfold execute_insert, table_of.
  repeat case_match; simpl; eauto.
Qed.

Lemma appends_add_entry data row now : appends (add_entry data row now).
Proof.
  unfold add_entry.
  repeat (apply appends_bind_l; [apply readonly_getitem|intros ?]).
  apply appends_bind_r; [apply appends_execute_insert|intros _].
  apply readonly_bind; [done|intros _].
  repeat (apply readonly_bind; [apply readonly_getitem|intros ?]).
  done.
Qed.

Lemma appends_after_fetch data row now :
  appends (post_equivalent_after_fetch data row now).
Proof.
  unfold post_equivalent_after_fetch. destruct row as [r|].
  - apply appends_bind_l; [apply readonly_getitem|intros t].
    case_decide; [apply appends_add_entry|by apply readonly_appends].
  - apply appends_add_entry.
Qed.

Lemma appends_post_equivalent data now : appends (post_equivalent data now).
Proof.
  unfold post_equivalent.
  apply appends_bind_l; [|intros row; apply appends_after_fetch].
  unfold post_equivalent_fetch.
  repeat (apply readonly_bind; [apply readonly_getitem|intros ?]).
  by apply readonly_bind.
Qed.

Lemma readonly_get_equivalent query : readonly (get_equivalent query).
Proof.
  unfold get_equivalent.
  repeat (apply readonly_bind; [apply readonly_getitem|intros ?]).
  by apply readonly_bind.
Qed.

Lemma serve_appends req tbl :
  serve req tbl = tbl ∨ ∃ r, serve req tbl = tbl ++ [r].
Proof.
  destruct req as [query|data now]; simpl.
  - left. apply readonly_get_equivalent.
  - apply appends_post_equivalent.
Qed.

Lemma serve_prefix req tbl i r :
  tbl !! i = Some r → serve req tbl !! i = Some r.
Proof.
  intros Hi. destruct (serve_appends req tbl) as [->|[x ->]]; [done|].
  by apply lookup_app_l_Some.
Qed.

Lemma run_prefix reqs tbl i r :
  tbl !! i = Some r → run reqs tbl !! i = Some r.
Proof.
  unfold run. revert tbl. induction reqs as [|req reqs IH]; intros tbl Hi; [done|].
  simpl. by apply IH, serve_prefix.
Qed.

(** ** The lookup resolver *)

Lemma filter_fmap_same (P : Row → Prop) `{!∀ r, Decision (P r)}
    (g : Row → Row) (l : list Row) :
  (∀ r, P (g r) ↔ P r) → filter P (g <$> l) = g <$> filter P l.
Proof.
  intros Hg. induction l as [|a l IH]; [done|].
  rewrite fmap_cons, !filter_cons, IH.
  destruct (decide (P (g a))) as [H1|H1], (decide (P a)) as [H2|H2];
    [done|by destruct H2; apply Hg|by destruct H1; apply Hg|done].
Qed.

Lemma insert_sorted_fmap leb (g : Row → Row) r (l : list Row) :
  (∀ x y, leb (g x) (g y) = leb x y) →
  insert_sorted leb (g r) (g <$> l) = g <$> insert_sorted leb r l.
Proof.
  intros Hg. induction l as [|a l IH]; [done|].
  rewrite fmap_cons. cbn [insert_sorted]. rewrite Hg.
  destruct (leb r a); [done|]. by rewrite fmap_cons, IH.
Qed.

Lemma order_by_fmap leb (g : Row → Row) (l : list Row) :
  (∀ x y, leb (g x) (g y) = leb x y) →
  order_by leb (g <$> l) = g <$> order_by leb l.
Proof.
  intros Hg. induction l as [|a l IH]; [done|].
  rewrite fmap_cons. unfold order_by in *. cbn [foldr].
  by rewrite IH, insert_sorted_fmap.
Qed.

Lemma select_taskhash_head m t tbl :
  match head (select_taskhash m t tbl) with
  | Some r => earliest (λ r, method r = m ∧ taskhash r = t) tbl r
  | None => ∀ r, r ∈ tbl → ¬ (method r = m ∧ taskhash r = t)
  end.
Proof.
  unfold select_taskhash.
  destruct (head _) as [r|] eqn:E.
  - apply order_by_head in E as [Hin Hmin];
      [|apply created_asc_total|apply created_asc_trans].
    apply list_elem_of_filter in Hin as [HP Hin].
    split; [exact Hin|split; [exact HP|]].
    intros x Hx HPx. apply Z.leb_le, Hmin, list_elem_of_filter. done.
  - apply order_by_head_None in E. intros r Hr HP.
    exact (filter_nil_not_elem_of
             (λ r, method r = m ∧ taskhash r = t) tbl r E HP Hr).
Qed.

Lemma get_equivalent_cases query tbl m t :
  query !! "method" = Some m → query !! "taskhash" = Some t →
  (∃ r, earliest (λ r, method r = m ∧ taskhash r = t) tbl r ∧
        result_of (get_equivalent query tbl) = Ok (Some (project r)))
  ∨ ((∀ r, r ∈ tbl → ¬ (method r = m ∧ taskhash r = t)) ∧
     result_of (get_equivalent query tbl) = Ok None).
Proof.
  intros Hm Ht.
  rewrite (get_equivalent_run _ _ _ _ Hm Ht). unfold result_of. simpl.
  pose proof (select_taskhash_head m t tbl) as H.
  destruct (head (select_taskhash m t tbl)) as [r|]; [left|right]; eauto.
Qed.

(** C4. [get_equivalent] on a query naming [method] and [taskhash] answers
    with the taskhash, method and unihash of a record of that method and
    taskhash whose [created] is least among all such records, whatever
    their outhash; it answers the null result, without raising, when no
    record matches; it leaves the table as it is; and the answer is the
    same on any table that differs in the outhash column only. *)
Theorem get_equivalent_earliest (query : gmap string string)
    (tbl : list Row) (m t : string) :
  query !! "method" = Some m → query !! "taskhash" = Some t →
  table_of (get_equivalent query tbl) = tbl ∧
  ((∃ r, earliest (λ r, method r = m ∧ taskhash r = t) tbl r ∧
         result_of (get_equivalent query tbl) =
           Ok (Some {| e_taskhash := taskhash r; e_method := method r;
                       e_unihash := unihash r |}))
   ∨ ((∀ r, r ∈ tbl → ¬ (method r = m ∧ taskhash r = t)) ∧
      result_of (get_equivalent query tbl) = Ok None)) ∧
  ∀ f : Row → string,
    result_of (get_equivalent query ((λ r, set_outhash (f r) r) <$> tbl)) =
    result_of (get_equivalent query tbl).
Proof.
  intros Hm Ht. split_and!.
  - apply readonly_get_equivalent.
  - destruct (get_equivalent_cases query tbl m t Hm Ht)
      as [(r & Hr & Hres)|Hnone]; [left|by right].
    exists r. split; [done|]. rewrite Hres. reflexivity.
  - intros f. rewrite !(get_equivalent_run _ _ _ _ Hm Ht).
    unfold result_of, select_taskhash. simpl.
    rewrite filter_fmap_same by done.
    rewrite order_by_fmap by done.
    by destruct (order_by _ _).
Qed.

Lemma get_equivalent_earliest_witness :
  query1 !! "method" = Some "m" ∧ query1 !! "taskhash" = Some "t1" ∧
  table_of (get_equivalent query1 table3) = table3 ∧
  ((∃ r, earliest (λ r, method r = "m" ∧ taskhash r = "t1") table3 r ∧
         result_of (get_equivalent query1 table3) =
           Ok (Some {| e_taskhash := taskhash r; e_method := method r;
                       e_unihash := unihash r |}))
   ∨ ((∀ r, r ∈ table3 → ¬ (method r = "m" ∧ taskhash r = "t1")) ∧
      result_of (get_equivalent query1 table3) = Ok None)) ∧
  ∀ f : Row → string,
    result_of (get_equivalent query1 ((λ r, set_outhash (f r) r) <$> table3)) =
    result_of (get_equivalent query1 table3).
Proof.
  split; [reflexivity|]. split; [reflexivity|].
  apply (get_equivalent_earliest query1 table3 "m" "t1"); reflexivity.
Defined.

(** On [table3] the taskhash [t1] was seen under two outhashes; the older
    record answers. *)
Example get_equivalent_table3 :
  get_equivalent query1 table3 =
    (Ok (Some {| e_taskhash := "t1"; e_method := "m"; e_unihash := "u1" |}),
     table3, [SelectTaskhash "m" "t1"]).
Proof. reflexivity. Qed.

(** ** The merge resolver, case by case *)

Lemma unique_triples_elem tbl r x :
  unique_triples tbl → r ∈ tbl → x ∈ tbl → same_triple r x → r = x.
Proof.
  intros Hu [i Hi]%list_elem_of_lookup_1 [j Hj]%list_elem_of_lookup_1 Hs.
  assert (i = j) as -> by eauto. congruence.
Qed.

(** C3. Case C: when the table holds a record of the request's
    (method, outhash, taskhash), [post_equivalent] executes the SELECT only,
    leaves the table as it is and answers with the (taskhash, method,
    unihash) of such a record, an earliest created one (the only one when
    triples are unique).  The answer does not depend on the request's
    unihash, nor on whether it has one. *)
Theorem post_equivalent_case_C (data : gmap string string) (now : Z)
    (tbl : list Row) (m h t : string) (x : Row) :
  data !! "method" = Some m → data !! "outhash" = Some h →
  data !! "taskhash" = Some t →
  x ∈ tbl → is_triple m h t x →
  ∃ r, earliest (is_triple m h t) tbl r ∧
       post_equivalent data now tbl =
         (Ok {| e_taskhash := taskhash r; e_method := method r;
                e_unihash := unihash r |},
          tbl, [SelectOuthash m h t]) ∧
       (unique_triples tbl → r = x) ∧
       ∀ data' now',
         data' !! "method" = Some m → data' !! "outhash" = Some h →
         data' !! "taskhash" = Some t →
         post_equivalent data' now' tbl = post_equivalent data now tbl.
Proof.
  intros Hm Hh Ht Hx Hxt.
  destruct (candidate_of_triple m h t tbl x Hx Hxt) as (r & Hc & Hr).
  pose proof (candidate_exact _ _ _ _ _ Hc Hr) as He.
  exists r. split_and!; [done| | |].
  - by rewrite (post_equivalent_exact data now tbl m h t Hm Hh Ht r Hc Hr).
  - intros Hu. destruct He as (Hin & (? & ? & ?) & _).
    destruct Hxt as (? & ? & ?).
    apply (unique_triples_elem tbl r x Hu Hin Hx).
    unfold same_triple. split_and!; congruence.
  - intros data' now' Hm' Hh' Ht'.
    rewrite (post_equivalent_exact data now tbl m h t Hm Hh Ht r Hc Hr).
    by rewrite (post_equivalent_exact data' now' tbl m h t Hm' Hh' Ht' r Hc Hr).
Qed.

Lemma post_equivalent_case_C_witness :
  ∃ r, earliest (is_triple "m" "h" "t1") table2 r ∧
       post_equivalent (<["unihash" := "other"]> post1) 30 table2 =
         (Ok {| e_taskhash := taskhash r; e_method := method r;
                e_unihash := unihash r |},
          table2, [SelectOuthash "m" "h" "t1"]) ∧
       (unique_triples table2 → r = new_row post1 10 [] "m" "h" "t1" "u1") ∧
       ∀ data' now',
         data' !! "method" = Some "m" → data' !! "outhash" = Some "h" →
         data' !! "taskhash" = Some "t1" →
         post_equivalent data' now' table2 =
         post_equivalent (<["unihash" := "other"]> post1) 30 table2.
Proof.
  apply (post_equivalent_case_C (<["unihash" := "other"]> post1) 30 table2
           "m" "h" "t1" (new_row post1 10 [] "m" "h" "t1" "u1")).
  - reflexivity.
  - reflexivity.
  - reflexivity.
  - left.
  - unfold is_triple. simpl. done.
Defined.

(** Re-observing [(m, h, t1)] with another unihash answers [u1]. *)
Example post_equivalent_again :
  post_equivalent (<["unihash" := "other"]> post1) 30 table2 =
    (Ok {| e_taskhash := "t1"; e_method := "m"; e_unihash := "u1" |},
     table2, [SelectOuthash "m" "h" "t1"]).
Proof. reflexivity. Qed.

Lemma new_row_unihash_ignored data now tbl m h t u u' :
  new_row (<["unihash" := u']> data) now tbl m h t u = new_row data now tbl m h t u.
Proof. unfold new_row. by rewrite !lookup_insert_ne by done. Qed.

(** C2. Case B: when the table holds a record of the request's
    (method, outhash) but none of its (method, outhash, taskhash),
    [post_equivalent] appends exactly one record, for the request's triple,
    whose unihash is that of the candidate (an earliest created record of
    the class), and answers with that unihash; the request's own unihash
    has no influence on the answer or on the table. *)
Theorem post_equivalent_case_B (data : gmap string string) (now : Z)
    (tbl : list Row) (m h t u : string) (x : Row) :
  data !! "method" = Some m → data !! "outhash" = Some h →
  data !! "taskhash" = Some t → data !! "unihash" = Some u →
  x ∈ tbl → in_class m h x →
  (∀ r, r ∈ tbl → ¬ is_triple m h t r) →
  ∃ cand new,
    earliest (in_class m h) tbl cand ∧
    result_of (post_equivalent data now tbl) =
      Ok {| e_taskhash := t; e_method := m; e_unihash := unihash cand |} ∧
    table_of (post_equivalent data now tbl) = tbl ++ [new] ∧
    is_triple m h t new ∧ unihash new = unihash cand ∧ created new = now ∧
    ∀ u', result_of (post_equivalent (<["unihash" := u']> data) now tbl)
            = result_of (post_equivalent data now tbl) ∧
          table_of (post_equivalent (<["unihash" := u']> data) now tbl)
            = table_of (post_equivalent data now tbl).
Proof.
  intros Hm Hh Ht Hu Hx Hxc Hno.
  destruct (candidate_is_Some m h t tbl x Hx Hxc) as [c Hc].
  assert (taskhash c ≠ t) as Hne.
  { intros Heq. destruct (candidate_exact _ _ _ _ _ Hc Heq) as (Hin & Htr & _).
    by apply (Hno c). }
  assert (∀ r, candidate m h t tbl = Some r → taskhash r ≠ t) as Hall
    by (intros r; rewrite Hc; by intros [= <-]).
  destruct (candidate_other _ _ _ _ _ Hc Hne) as [He _].
  exists c, (new_row data now tbl m h t (unihash c)).
  rewrite (post_equivalent_insert data now tbl m h t Hm Hh Ht u Hu Hall).
  rewrite Hc. simpl. split_and!; try done.
  intros u'.
  rewrite (post_equivalent_insert (<["unihash" := u']> data) now tbl m h t)
    with (u := u'); [|by simplify_map_eq..|done].
  rewrite Hc. simpl. by rewrite new_row_unihash_ignored.
Qed.

Lemma post_equivalent_case_B_witness :
  ∃ cand new,
    earliest (in_class "m" "h") table1 cand ∧
    result_of (post_equivalent post2 20 table1) =
      Ok {| e_taskhash := "t2"; e_method := "m"; e_unihash := unihash cand |} ∧
    table_of (post_equivalent post2 20 table1) = table1 ++ [new] ∧
    is_triple "m" "h" "t2" new ∧ unihash new = unihash cand ∧ created new = 20 ∧
    ∀ u', result_of (post_equivalent (<["unihash" := u']> post2) 20 table1)
            = result_of (post_equivalent post2 20 table1) ∧
          table_of (post_equivalent (<["unihash" := u']> post2) 20 table1)
            = table_of (post_equivalent post2 20 table1).
Proof.
  apply (post_equivalent_case_B post2 20 table1 "m" "h" "t2" "u2"
           (new_row post1 10 [] "m" "h" "t1" "u1")).
  - reflexivity.
  - reflexivity.
  - reflexivity.
  - reflexivity.
  - left.
  - by split.
  - intros r ->%list_elem_of_singleton (_ & _ & Hr). discriminate Hr.
Defined.

(** The second observation of outhash [h] inherits [u1]; [u2] is dropped. *)
Example post_equivalent_inherits :
  result_of (post_equivalent post2 20 table1) =
    Ok {| e_taskhash := "t2"; e_method := "m"; e_unihash := "u1" |} ∧
  table_of (post_equivalent post2 20 table1) =
    table1 ++ [new_row post2 20 table1 "m" "h" "t2" "u1"].
Proof. split; reflexivity. Qed.

Lemma post_equivalent_frame data now tbl :
  (table_of (post_equivalent data now tbl) = tbl ∧
   ∀ cols, InsertTask cols ∉ log_of (post_equivalent data now tbl))
  ∨ (∃ r cols m h t,
       table_of (post_equivalent data now tbl) = tbl ++ [r] ∧
       log_of (post_equivalent data now tbl)
         = [SelectOuthash m h t; InsertTask cols; Commit]).
Proof.
  destruct (post_equivalent_outcome data now tbl)
    as [| | |m h t u c|m h t u]; unfold table_of, log_of; simpl.
  - left. split; [done|]. intros cols Hin. by apply elem_of_nil in Hin.
  - left. split; [done|]. by intros cols Hin%list_elem_of_singleton.
  - left. split; [done|]. by intros cols Hin%list_elem_of_singleton.
  - right. by eexists _, _, _, _, _.
  - right. by eexists _, _, _, _, _.
Qed.

(** C9. No handler changes or removes a record.  [get_equivalent] leaves
    the table as it is and sends nothing but its SELECT to the database.
    [post_equivalent] either leaves the table as it is and executes no
    INSERT (case C, or a rejected call), or appends one row to it by one
    INSERT (cases A and B); its part after the fetch, run on any table,
    likewise leaves the table or appends one row.  Over any sequence of
    requests the starting table stays, row for row, a prefix of the
    table. *)
Theorem handlers_keep_records (query data : gmap string string) (now : Z)
    (row : option Equiv) (reqs : list Request) (tbl : list Row) :
  table_of (get_equivalent query tbl) = tbl ∧
  (log_of (get_equivalent query tbl) = [] ∨
   ∃ m t, log_of (get_equivalent query tbl) = [SelectTaskhash m t]) ∧
  ((table_of (post_equivalent data now tbl) = tbl ∧
    ∀ cols, InsertTask cols ∉ log_of (post_equivalent data now tbl))
   ∨ (∃ r cols m h t,
        table_of (post_equivalent data now tbl) = tbl ++ [r] ∧
        log_of (post_equivalent data now tbl)
          = [SelectOuthash m h t; InsertTask cols; Commit])) ∧
  (table_of (post_equivalent_after_fetch data row now tbl) = tbl ∨
   ∃ r, table_of (post_equivalent_after_fetch data row now tbl) = tbl ++ [r]) ∧
  ∃ added, run reqs tbl = tbl ++ added.
Proof.
  split; [apply readonly_get_equivalent|].
  split.
  { unfold get_equivalent. db_unfold.
    destruct (query !! "method"); [|by left].
    destruct (query !! "taskhash"); [|by left]. right. eauto. }
  split; [apply post_equivalent_frame|].
  split; [apply appends_after_fetch|].
  unfold run. revert tbl. induction reqs as [|req reqs IH]; intros tbl.
  - exists []. by rewrite app_nil_r.
  - simpl. destruct (IH (serve req tbl)) as [added ->].
    destruct (serve_appends req tbl) as [->|[r ->]]; [eauto|].
    exists (r :: added). by rewrite <-app_assoc.
Qed.

(** ** Invariants of the table *)

Lemma unique_triples_nil : unique_triples [].
Proof. intros i j r1 r2 Hi. by rewrite lookup_nil in Hi. Qed.

Lemma unique_triples_snoc tbl r :
  unique_triples tbl → (∀ x, x ∈ tbl → ¬ same_triple r x) →
  unique_triples (tbl ++ [r]).
Proof.
  intros Hu Hfresh i j r1 r2 Hi Hj Hs.
  apply lookup_snoc_Some in Hi as [[Hil Hi]|[-> <-]];
    apply lookup_snoc_Some in Hj as [[Hjl Hj]|[-> <-]]; [eauto| | |done].
  - destruct (Hfresh r1); [by eapply list_elem_of_lookup_2|].
    destruct Hs as (? & ? & ?). by split_and!.
  - destruct (Hfresh r2); [by eapply list_elem_of_lookup_2|done].
Qed.

Lemma new_row_fresh data now tbl m h t u :
  (∀ x, x ∈ tbl → ¬ is_triple m h t x) →
  ∀ x, x ∈ tbl → ¬ same_triple (new_row data now tbl m h t u) x.
Proof.
  intros Hno x Hx (Hm & Hh & Ht). simpl in *. apply (Hno x Hx).
  by split_and!.
Qed.

Lemma candidate_no_triple m h t tbl :
  (∀ c, candidate m h t tbl = Some c → taskhash c ≠ t) →
  ∀ x, x ∈ tbl → ¬ is_triple m h t x.
Proof.
  intros Hc x Hx Hxt.
  destruct (candidate_of_triple _ _ _ _ _ Hx Hxt) as (r & Hr & Hrt).
  by apply (Hc r).
Qed.

Lemma post_equivalent_unique data now tbl :
  unique_triples tbl → unique_triples (table_of (post_equivalent data now tbl)).
Proof.
  intros Hu. destruct (post_equivalent_outcome data now tbl)
    as [| | |m h t u c ? ? ? ? Hc Hne|m h t u ? ? ? ? Hc]; try done.
  - apply unique_triples_snoc, new_row_fresh; [done|].
    by destruct (candidate_other _ _ _ _ _ Hc Hne).
  - apply unique_triples_snoc, new_row_fresh; [done|].
    apply candidate_no_triple. intros c'. by rewrite Hc.
Qed.

Lemma serve_unique req tbl : unique_triples tbl → unique_triples (serve req tbl).
Proof.
  destruct req as [query|data now]; simpl.
  - by rewrite readonly_get_equivalent.
  - apply post_equivalent_unique.
Qed.

Lemma reachable_unique tbl : reachable tbl → unique_triples tbl.
Proof.
  induction 1 as [|req tbl _ IH]; [apply unique_triples_nil|by apply serve_unique].
Qed.

Lemma reachable_run reqs tbl : reachable tbl → reachable (run reqs tbl).
Proof.
  unfold run. revert tbl. induction reqs as [|req reqs IH]; intros tbl Hr; [done|].
  simpl. by apply IH, reachable_serve.
Qed.

Lemma post_equivalent_no_integrity_error data now tbl :
  result_of (post_equivalent data now tbl) ≠ Raise IntegrityError.
Proof. by destruct (post_equivalent_outcome data now tbl). Qed.

Lemma post_equivalent_inserts_fresh data now tbl cols i r :
  InsertTask cols ∈ log_of (post_equivalent data now tbl) →
  row_of i cols = Some r → ∀ x, x ∈ tbl → ¬ same_triple r x.
Proof.
  destruct (post_equivalent_outcome data now tbl)
    as [| | |m h t u c ? ? ? ? Hc Hne|m h t u ? ? ? ? Hc];
    unfold log_of; simpl; intros Hin Hrow; set_unfold in Hin;
    destruct_or?; simplify_eq.
  - rewrite row_of_insert_data in Hrow. simplify_eq.
    intros x Hx (Hm & Hh & Ht). simpl in *.
    destruct (candidate_other _ _ _ _ _ Hc Hne) as [_ Hno].
    apply (Hno x Hx). by split_and!.
  - rewrite row_of_insert_data in Hrow. simplify_eq.
    intros x Hx (Hm & Hh & Ht). simpl in *.
    eapply candidate_None; [exact Hc|exact Hx|]. by split.
Qed.

(** C7. Every table the server reaches by serving requests one after the
    other holds at most one record per (method, outhash, taskhash); a
    further [post_equivalent], and any further sequence of requests, keeps
    it so; the handler never ends in the integrity error, and the row of
    every INSERT it executes has a triple no record of the table has. *)
Theorem merge_keeps_triples_unique (tbl : list Row)
    (data : gmap string string) (now : Z) (reqs : list Request) :
  reachable tbl →
  unique_triples tbl ∧
  unique_triples (table_of (post_equivalent data now tbl)) ∧
  unique_triples (run reqs tbl) ∧
  result_of (post_equivalent data now tbl) ≠ Raise IntegrityError ∧
  ∀ cols i r,
    InsertTask cols ∈ log_of (post_equivalent data now tbl) →
    row_of i cols = Some r → ∀ x, x ∈ tbl → ¬ same_triple r x.
Proof.
  intros Hr. split_and!.
  - by apply reachable_unique.
  - by apply post_equivalent_unique, reachable_unique.
  - by apply reachable_unique, reachable_run.
  - apply post_equivalent_no_integrity_error.
  - apply post_equivalent_inserts_fresh.
Qed.

Lemma merge_keeps_triples_unique_witness :
  reachable table1 ∧
  unique_triples table1 ∧
  unique_triples (table_of (post_equivalent post1 20 table1)) ∧
  unique_triples (run [POST post2 20; POST post1 30] table1) ∧
  result_of (post_equivalent post1 20 table1) ≠ Raise IntegrityError ∧
  ∀ cols i r,
    InsertTask cols ∈ log_of (post_equivalent post1 20 table1) →
    row_of i cols = Some r → ∀ x, x ∈ table1 → ¬ same_triple r x.
Proof.
  assert (reachable table1) as Hr
    by apply (reachable_serve (POST post1 10) []), reachable_empty.
  split; [exact Hr|].
  exact (merge_keeps_triples_unique table1 post1 20
           [POST post2 20; POST post1 30] Hr).
Defined.

Lemma converged_nil : converged [].
Proof. intros r1 r2 Hr1. by apply elem_of_nil in Hr1. Qed.

Lemma converged_snoc tbl r :
  converged tbl →
  (∀ x, x ∈ tbl → method x = method r → outhash x = outhash r →
        unihash x = unihash r) →
  converged (tbl ++ [r]).
Proof.
  intros Hc Hr r1 r2 H1 H2 Hm Hh.
  apply elem_of_app in H1 as [H1|H1%list_elem_of_singleton];
    apply elem_of_app in H2 as [H2|H2%list_elem_of_singleton]; subst.
  - by apply Hc.
  - by apply Hr.
  - symmetry. by apply Hr.
  - done.
Qed.

Lemma post_equivalent_converged data now tbl :
  converged tbl → converged (table_of (post_equivalent data now tbl)).
Proof.
  intros Hcv. destruct (post_equivalent_outcome data now tbl)
    as [| | |m h t u c ? ? ? ? Hc Hne|m h t u ? ? ? ? Hc]; try done.
  - apply converged_snoc; [done|]. simpl. intros x Hx Hxm Hxh.
    apply candidate_Some in Hc as (Hin & [Hcm Hch] & _).
    apply Hcv; congruence.
  - apply converged_snoc; [done|]. simpl. intros x Hx Hxm Hxh.
    by destruct (candidate_None _ _ _ _ Hc x Hx).
Qed.

Lemma serve_converged req tbl : converged tbl → converged (serve req tbl).
Proof.
  destruct req as [query|data now]; simpl.
  - by rewrite readonly_get_equivalent.
  - apply post_equivalent_converged.
Qed.

Lemma run_converged reqs tbl : converged tbl → converged (run reqs tbl).
Proof.
  unfold run. revert tbl. induction reqs as [|req reqs IH]; intros tbl Hc; [done|].
  simpl. by apply IH, serve_converged.
Qed.

Lemma reachable_converged tbl : reachable tbl → converged tbl.
Proof.
  induction 1 as [|req tbl _ IH]; [apply converged_nil|by apply serve_converged].
Qed.

(** C1, as amended.  Let [tbl] be a table the server reaches by serving
    requests one at a time, no handler interleaving with another, and
    [reqs] any further sequence of requests served the same way.  In the
    table after [reqs], all records of one (method, outhash) have the same
    unihash; it is the unihash of the earliest created record of that
    (method, outhash); and it is the unihash the records of that class
    already had in [tbl]. *)
Theorem merge_converges (tbl : list Row) (reqs : list Request) :
  reachable tbl →
  converged (run reqs tbl) ∧
  (∀ m h r0 r, earliest (in_class m h) (run reqs tbl) r0 →
     r ∈ run reqs tbl → in_class m h r → unihash r = unihash r0) ∧
  (∀ r0 r, r0 ∈ tbl → r ∈ run reqs tbl →
     method r = method r0 → outhash r = outhash r0 → unihash r = unihash r0).
Proof.
  intros Hr.
  assert (converged (run reqs tbl)) as Hcv
    by (by apply run_converged, reachable_converged).
  split_and!; [done| |].
  - intros m h r0 r (Hin0 & [Hm0 Hh0] & _) Hin [Hm1 Hh1].
    apply Hcv; congruence.
  - intros r0 r [i Hi]%list_elem_of_lookup_1 Hin Hm1 Hh1.
    apply Hcv; [done| |done..].
    eapply list_elem_of_lookup_2, run_prefix, Hi.
Qed.

Lemma merge_converges_witness :
  reachable table1 ∧
  converged (run [POST post2 20; POST post3 30] table1) ∧
  (∀ m h r0 r,
     earliest (in_class m h) (run [POST post2 20; POST post3 30] table1) r0 →
     r ∈ run [POST post2 20; POST post3 30] table1 → in_class m h r →
     unihash r = unihash r0) ∧
  (∀ r0 r, r0 ∈ table1 → r ∈ run [POST post2 20; POST post3 30] table1 →
     method r = method r0 → outhash r = outhash r0 → unihash r = unihash r0).
Proof.
  assert (reachable table1) as Hr
    by apply (reachable_serve (POST post1 10) []), reachable_empty.
  split; [exact Hr|].
  exact (merge_converges table1 [POST post2 20; POST post3 30] Hr).
Defined.

Lemma post_equivalent_fetch_readonly data tbl r tbl' log :
  post_equivalent_fetch data tbl = (r, tbl', log) → tbl' = tbl.
Proof.
  unfold post_equivalent_fetch. db_unfold.
  destruct (data !! "method"); [|by intros [= _ <- _]].
  destruct (data !! "outhash"); [|by intros [= _ <- _]].
  destruct (data !! "taskhash"); [|by intros [= _ <- _]].
  by intros [= _ <- _].
Qed.

(** Sequential service is the interleaved service in which every handler
    resumes right after its fetch. *)
Lemma reachable_interleaved tbl : reachable tbl → interleaved tbl [].
Proof.
  induction 1 as [|req tbl _ IH]; [apply interleaved_start|].
  destruct req as [query|data now]; simpl.
  - by rewrite readonly_get_equivalent.
  - unfold post_equivalent, mbind, DB_mbind, DB_bind.
    destruct (post_equivalent_fetch data tbl) as [[[row|e] tbl1] log1] eqn:Hf;
      pose proof (post_equivalent_fetch_readonly _ _ _ _ _ Hf) as ->.
    + pose proof (interleaved_resume tbl [] [] data row now
                    (interleaved_fetch _ _ _ _ _ IH Hf)) as Hres.
      simpl in Hres. unfold table_of in *.
      by destruct (post_equivalent_after_fetch data row now tbl) as [[? ?] ?].
    + done.
Qed.

(** The claim of C1 fails once handlers interleave.  Two handlers for the
    new outhash [h], with taskhashes [t1] and [t2], both fetch on the empty
    table before either inserts; each then stores its caller's unihash, and
    the table so reached holds the class [(m, h)] with the unihashes [u1]
    and [u2]. *)
Lemma merge_converges_counterexample :
  interleaved (table1 ++ [new_row post2 20 table1 "m" "h" "t2" "u2"]) [] ∧
  ¬ converged (table1 ++ [new_row post2 20 table1 "m" "h" "t2" "u2"]).
Proof.
  split.
  - assert (interleaved [] [(post2, None); (post1, None)]) as Hfetched.
    { apply (interleaved_fetch [] _ post2 None [SelectOuthash "m" "h" "t2"]);
        [|reflexivity].
      apply (interleaved_fetch [] _ post1 None [SelectOuthash "m" "h" "t1"]);
        [|reflexivity].
      apply interleaved_start. }
    pose proof (interleaved_resume [] [(post2, None)] [] post1 None 10
                  Hfetched) as Hfirst.
    exact (interleaved_resume _ [] [] post2 None 20 Hfirst).
  - intros Hcv.
    specialize (Hcv (new_row post1 10 [] "m" "h" "t1" "u1")
                    (new_row post2 20 table1 "m" "h" "t2" "u2")).
    discriminate Hcv; [left|right; left|done..].
Qed.

(** ** Lookup after merge *)

Lemma post_equivalent_records_triple data now tbl m h t u :
  data !! "method" = Some m → data !! "outhash" = Some h →
  data !! "taskhash" = Some t → data !! "unihash" = Some u →
  ∃ e x, result_of (post_equivalent data now tbl) = Ok e ∧
         x ∈ table_of (post_equivalent data now tbl) ∧ is_triple m h t x.
Proof.
  intros Hm Hh Ht Hu.
  destruct (post_equivalent_outcome data now tbl)
    as [k Hk Hnone| |m' h' t' r ? ? ? Hc Hr|m' h' t' u' c|m' h' t' u'];
    simplify_eq.
  - set_unfold in Hk. destruct_or!; congruence.
  - destruct (candidate_exact _ _ _ _ _ Hc eq_refl) as (Hin & Htr & _).
    by exists (project r), r.
  - eexists _, (new_row data now tbl m h t (unihash c)). split_and!; [done| |done].
    apply elem_of_app. right. by left.
  - eexists _, (new_row data now tbl m h t u). split_and!; [done| |done].
    apply elem_of_app. right. by left.
Qed.

Lemma post_equivalent_keeps_unihash data now tbl m h t u :
  data !! "method" = Some m → data !! "outhash" = Some h →
  data !! "taskhash" = Some t → data !! "unihash" = Some u →
  (∀ x, x ∈ tbl → method x = m → outhash x = h ∨ taskhash x = t →
        unihash x = u) →
  ∀ x, x ∈ table_of (post_equivalent data now tbl) →
       method x = m → outhash x = h ∨ taskhash x = t → unihash x = u.
Proof.
  intros Hm Hh Ht Hu Hold.
  destruct (post_equivalent_outcome data now tbl)
    as [k Hk Hnone| |m' h' t' r ? ? ? Hc Hr|m' h' t' u' c ? ? ? ? Hc Hne
       |m' h' t' u']; simplify_eq; try done.
  - apply candidate_Some in Hc as (Hin & [Hcm Hch] & _).
    unfold table_of. simpl.
    intros x [Hx| ->%list_elem_of_singleton]%elem_of_app; [by apply Hold|].
    intros _ _. simpl. apply Hold; auto.
  - unfold table_of. simpl.
    by intros x [Hx| ->%list_elem_of_singleton]%elem_of_app; [apply Hold|].
Qed.

(** C8, as amended.  After [post_equivalent] for [(m, h, t, u)] completed,
    [get_equivalent] for [(m, t)] never answers null: it answers with an
    earliest created record of [(m, t)].  It answers [u] when every record
    the table held before the merge for the method with that outhash or
    that taskhash carried [u], in particular when the table held none. *)
Theorem lookup_after_merge (data query : gmap string string) (now : Z)
    (tbl : list Row) (m h t u : string) :
  data !! "method" = Some m → data !! "outhash" = Some h →
  data !! "taskhash" = Some t → data !! "unihash" = Some u →
  query !! "method" = Some m → query !! "taskhash" = Some t →
  (∃ e, result_of (post_equivalent data now tbl) = Ok e) ∧
  (∃ r, earliest (λ r, method r = m ∧ taskhash r = t)
          (table_of (post_equivalent data now tbl)) r ∧
        result_of (get_equivalent query (table_of (post_equivalent data now tbl)))
          = Ok (Some (project r))) ∧
  ((∀ x, x ∈ tbl → method x = m → outhash x = h ∨ taskhash x = t →
         unihash x = u) →
   resolves_to query (table_of (post_equivalent data now tbl)) u).
Proof.
  intros Hm Hh Ht Hu Hqm Hqt.
  destruct (post_equivalent_records_triple data now tbl m h t u Hm Hh Ht Hu)
    as (e & x & He & Hx & Hxm & Hxh & Hxt).
  destruct (get_equivalent_cases query
              (table_of (post_equivalent data now tbl)) m t Hqm Hqt)
    as [(r & Hr & Hres)|[Hnone _]]; [|by destruct (Hnone x Hx)].
  split_and!; [eauto|eauto|].
  intros Hold. exists (project r). split; [done|]. simpl.
  destruct Hr as (Hin & [Hrm Hrt] & _).
  apply (post_equivalent_keeps_unihash data now tbl m h t u
           Hm Hh Ht Hu Hold r Hin Hrm).
  by right.
Qed.

Lemma lookup_after_merge_witness :
  (∃ e, result_of (post_equivalent post1 10 []) = Ok e) ∧
  (∃ r, earliest (λ r, method r = "m" ∧ taskhash r = "t1")
          (table_of (post_equivalent post1 10 [])) r ∧
        result_of (get_equivalent query1 (table_of (post_equivalent post1 10 [])))
          = Ok (Some (project r))) ∧
  ((∀ x, x ∈ [] → method x = "m" → outhash x = "h" ∨ taskhash x = "t1" →
         unihash x = "u1") →
   resolves_to query1 (table_of (post_equivalent post1 10 [])) "u1").
Proof.
  apply (lookup_after_merge post1 query1 10 [] "m" "h" "t1" "u1");
    reflexivity.
Defined.

(** The claim of C8 fails where the merge inherits: on [table1] the call
    for [(m, h, t2, u2)] completes, and the lookup of [(m, t2)] answers
    [u1]. *)
Lemma lookup_after_merge_counterexample :
  result_of (post_equivalent post2 20 table1)
    = Ok {| e_taskhash := "t2"; e_method := "m"; e_unihash := "u1" |} ∧
  post2 !! "unihash" = Some "u2" ∧
  ¬ resolves_to query2 (table_of (post_equivalent post2 20 table1)) "u2".
Proof.
  split; [reflexivity|]. split; [reflexivity|].
  intros (e & He & Hu).
  assert (result_of (get_equivalent query2
            (table_of (post_equivalent post2 20 table1)))
          = Ok (Some {| e_taskhash := "t2"; e_method := "m";
                        e_unihash := "u1" |})) as Hres by reflexivity.
  rewrite He in Hres. injection Hres as ->. discriminate Hu.
Qed.

(** ** A duplicate insert *)

(** C5, as amended.  When the part of [post_equivalent] after the fetch
    takes the insert branch on a table that by then holds a record of the
    request's triple, the INSERT fails on the uniqueness constraint and the
    handler ends in [IntegrityError]: nothing is read again, nothing is
    committed, and the table stays as the other writer left it. *)
Theorem duplicate_insert_raises (data : gmap string string)
    (row : option Equiv) (now : Z) (tbl : list Row) (m h t u : string) (x : Row) :
  data !! "method" = Some m → data !! "outhash" = Some h →
  data !! "taskhash" = Some t → data !! "unihash" = Some u →
  (∀ r, row = Some r → e_taskhash r ≠ t) →
  x ∈ tbl → is_triple m h t x →
  post_equivalent_after_fetch data row now tbl =
    (Raise IntegrityError, tbl,
     [InsertTask (insert_data_of data now m h t (inherited row u))]).
Proof.
  intros Hm Hh Ht Hu Hrow Hx Hxt.
  assert (add_entry data row now tbl =
    (Raise IntegrityError, tbl,
     [InsertTask (insert_data_of data now m h t (inherited row u))])) as Hadd.
  { rewrite (add_entry_run data now tbl m h t Hm Hh Ht row u Hu). simpl.
    rewrite decide_True; [done|]. apply Exists_same_triple. eauto. }
  unfold post_equivalent_after_fetch. destruct row as [r|]; [|done].
  db_unfold. rewrite Ht. simpl.
  rewrite decide_True by (by apply Hrow). by rewrite Hadd.
Qed.

Lemma duplicate_insert_raises_witness :
  post_equivalent_after_fetch post1 None 11 table1 =
    (Raise IntegrityError, table1,
     [InsertTask (insert_data_of post1 11 "m" "h" "t1" (inherited None "u1"))]).
Proof.
  apply (duplicate_insert_raises post1 None 11 table1 "m" "h" "t1" "u1"
           (new_row post1 10 [] "m" "h" "t1" "u1")).
  - reflexivity.
  - reflexivity.
  - reflexivity.
  - reflexivity.
  - intros r Hr. discriminate Hr.
  - left.
  - unfold is_triple. simpl. done.
Defined.

(** The claim of C5 fails on the race it describes.  Two writers post the
    triple [(m, h, t1)]; each runs its SELECT on the empty table and
    fetches no row; the first then inserts, which gives [table1]; the
    INSERT of the second, on [table1], raises [IntegrityError]. *)
Lemma duplicate_insert_counterexample :
  post_equivalent_fetch post1 [] = (Ok None, [], [SelectOuthash "m" "h" "t1"]) ∧
  table_of (post_equivalent_after_fetch post1 None 10 []) = table1 ∧
  result_of (post_equivalent_after_fetch post1 None 11 table1)
    = Raise IntegrityError ∧
  table_of (post_equivalent_after_fetch post1 None 11 table1) = table1.
Proof. split_and!; reflexivity. Qed.

(** ** Requests that lack a required field *)

(** C6, as amended.  A write call that lacks a required field never
    modifies the table.  When it lacks [method], [outhash] or [taskhash]
    it ends in [KeyError] with no statement sent to the database.  When it
    lacks [unihash] only, the candidate SELECT is executed first: the call
    ends in [KeyError] if the table has no record of its triple, and is
    answered from such a record otherwise. *)
Theorem missing_field_outcome (data : gmap string string) (now : Z)
    (tbl : list Row) :
  (∃ k, k ∈ required_keys ∧ data !! k = None) →
  table_of (post_equivalent data now tbl) = tbl ∧
  ((∃ k, k ∈ ["method"; "outhash"; "taskhash"] ∧ data !! k = None) →
   ∃ k, post_equivalent data now tbl = (Raise (KeyError k), tbl, [])) ∧
  (∀ m h t,
     data !! "method" = Some m → data !! "outhash" = Some h →
     data !! "taskhash" = Some t →
     log_of (post_equivalent data now tbl) = [SelectOuthash m h t] ∧
     ((∀ x, x ∈ tbl → ¬ is_triple m h t x) →
      result_of (post_equivalent data now tbl) = Raise (KeyError "unihash")) ∧
     (∀ x, x ∈ tbl → is_triple m h t x →
      ∃ r, earliest (is_triple m h t) tbl r ∧
           result_of (post_equivalent data now tbl) = Ok (project r))).
Proof.
  intros (k0 & Hk0 & Hnone0). unfold required_keys in Hk0.
  destruct (post_equivalent_outcome data now tbl)
    as [k Hk Hnone|m h t Hm Hh Ht Hu Hno|m h t r Hm Hh Ht Hc Hr
       |m h t u c Hm Hh Ht Hu|m h t u Hm Hh Ht Hu].
  - split_and!; [done|eauto|].
    intros m h t Hm Hh Ht. set_unfold in Hk. destruct_or!; congruence.
  - split_and!; [done| |].
    + intros (k & Hk & Hnone). set_unfold in Hk. destruct_or!; congruence.
    + intros m' h' t' Hm' Hh' Ht'. simplify_eq. split_and!; [done..|].
      intros x Hx Hxt. by destruct (Hno x Hx).
  - pose proof (candidate_exact _ _ _ _ _ Hc Hr) as He.
    split_and!; [done| |].
    + intros (k & Hk & Hnone). set_unfold in Hk. destruct_or!; congruence.
    + intros m' h' t' Hm' Hh' Ht'. simplify_eq. split_and!; [done| |eauto].
      intros Hno. destruct He as (Hin & Htr & _). by destruct (Hno r Hin).
  - set_unfold in Hk0. destruct_or!; congruence.
  - set_unfold in Hk0. destruct_or!; congruence.
Qed.

Lemma missing_field_outcome_witness :
  (∃ k, k ∈ required_keys ∧ delete "unihash" post2 !! k = None) ∧
  table_of (post_equivalent (delete "unihash" post2) 20 table1) = table1 ∧
  ((∃ k, k ∈ ["method"; "outhash"; "taskhash"] ∧
         delete "unihash" post2 !! k = None) →
   ∃ k, post_equivalent (delete "unihash" post2) 20 table1
        = (Raise (KeyError k), table1, [])) ∧
  (∀ m h t,
     delete "unihash" post2 !! "method" = Some m →
     delete "unihash" post2 !! "outhash" = Some h →
     delete "unihash" post2 !! "taskhash" = Some t →
     log_of (post_equivalent (delete "unihash" post2) 20 table1)
       = [SelectOuthash m h t] ∧
     ((∀ x, x ∈ table1 → ¬ is_triple m h t x) →
      result_of (post_equivalent (delete "unihash" post2) 20 table1)
        = Raise (KeyError "unihash")) ∧
     (∀ x, x ∈ table1 → is_triple m h t x →
      ∃ r, earliest (is_triple m h t) table1 r ∧
           result_of (post_equivalent (delete "unihash" post2) 20 table1)
             = Ok (project r))).
Proof.
  assert (∃ k, k ∈ required_keys ∧ delete "unihash" post2 !! k = None) as Hk.
  { exists "unihash". split; [|reflexivity].
    unfold required_keys. do 3 right. left. }
  split; [exact Hk|].
  exact (missing_field_outcome (delete "unihash" post2) 20 table1 Hk).
Defined.

(** The claim of C6 fails for [unihash]: the call for [(m, h, t2)] without
    a unihash, on [table1], is rejected only after its SELECT reached the
    database. *)
Lemma missing_field_counterexample :
  (∃ k, k ∈ required_keys ∧ delete "unihash" post2 !! k = None) ∧
  post_equivalent (delete "unihash" post2) 20 table1
    = (Raise (KeyError "unihash"), table1, [SelectOuthash "m" "h" "t2"]) ∧
  ¬ rejected_before_store (delete "unihash" post2) 20 table1.
Proof.
  split_and!.
  - exists "unihash". split; [|reflexivity].
    unfold required_keys. do 3 right. left.
  - reflexivity.
  - intros [e He].
    assert (log_of (post_equivalent (delete "unihash" post2) 20 table1)
            = [SelectOuthash "m" "h" "t2"]) as Hlog by reflexivity.
    rewrite He in Hlog. discriminate Hlog.
Qed.

(** Without a unihash, a call for a triple the table holds is answered. *)
Example missing_unihash_answered :
  post_equivalent (delete "unihash" post1) 20 table1
    = (Ok {| e_taskhash := "t1"; e_method := "m"; e_unihash := "u1" |},
       table1, [SelectOuthash "m" "h" "t1"]).
Proof. reflexivity. Qed.

(** ** The optional columns *)

Lemma copy_optional_ext data data' ins :
  (∀ k, k ∈ optional_keys → data' !! k = data !! k) →
  copy_optional data' ins = copy_optional data ins.
Proof.
  intros Heq. apply map_eq. intros k. rewrite !copy_optional_lookup.
  case_decide; [|done]. by rewrite Heq.
Qed.

Lemma new_row_ext data data' now tbl m h t u :
  (∀ k, k ∈ optional_keys → data' !! k = data !! k) →
  new_row data' now tbl m h t u = new_row data now tbl m h t u.
Proof.
  intros Heq. unfold new_row. by rewrite !Heq by compute_done.
Qed.

Lemma add_entry_ext data data' row now tbl :
  (∀ k, k ∈ required_keys ++ optional_keys → data' !! k = data !! k) →
  add_entry data' row now tbl = add_entry data row now tbl.
Proof.
  intros Heq.
  assert (∀ k, k ∈ optional_keys → data' !! k = data !! k) as Hopt.
  { intros k Hk. apply Heq, elem_of_app. by right. }
  unfold add_entry. db_unfold.
  rewrite !(Heq "unihash"), !(Heq "method"), !(Heq "outhash"),
    !(Heq "taskhash") by compute_done.
  destruct (data !! "unihash") as [u|]; [|done].
  destruct (data !! "method") as [m|]; [|done].
  destruct (data !! "outhash") as [h|]; [|done].
  destruct (data !! "taskhash") as [t|]; [|done].
  simpl. by rewrite (copy_optional_ext data data') by done.
Qed.

Lemma post_equivalent_ext data data' now tbl :
  (∀ k, k ∈ required_keys ++ optional_keys → data' !! k = data !! k) →
  post_equivalent data' now tbl = post_equivalent data now tbl.
Proof.
  intros Heq.
  assert (∀ row tbl', post_equivalent_after_fetch data' row now tbl'
                      = post_equivalent_after_fetch data row now tbl') as Haf.
  { intros row tbl'. unfold post_equivalent_after_fetch.
    destruct row as [r|]; [|by apply add_entry_ext].
    db_unfold. rewrite (Heq "taskhash") by compute_done.
    destruct (data !! "taskhash"); [|done]. simpl.
    case_decide; [|done]. by rewrite (add_entry_ext data data'). }
  unfold post_equivalent. db_unfold.
  rewrite (Heq "method"), (Heq "outhash"), (Heq "taskhash") by compute_done.
  destruct (data !! "method") as [m|]; [|done].
  destruct (data !! "outhash") as [h|]; [|done].
  destruct (data !! "taskhash") as [t|]; [|done].
  simpl. by rewrite Haf.
Qed.

Lemma insert_data_of_optional data now m h t u k :
  k ∈ optional_keys →
  insert_data_of data now m h t u !! k = Text <$> data !! k.
Proof.
  intros Hk. unfold insert_data_of.
  rewrite copy_optional_lookup, decide_True by done.
  destruct (data !! k); [done|].
  unfold optional_keys in Hk. set_unfold. by destruct_or!; subst.
Qed.

Lemma insert_data_of_keys data now m h t u k :
  is_Some (insert_data_of data now m h t u !! k) →
  k ∈ ["method"; "outhash"; "taskhash"; "unihash"; "created"]
  ∨ (k ∈ optional_keys ∧ is_Some (data !! k)).
Proof.
  unfold insert_data_of. rewrite copy_optional_lookup.
  case_decide as Hk.
  - destruct (data !! k) eqn:Hd; [right; eauto|].
    intros [v Hv]. unfold optional_keys in Hk.
    set_unfold in Hk. by destruct_or!; subst.
  - intros Hs%elem_of_dom. rewrite !dom_insert_L, dom_singleton_L in Hs.
    left. clear Hk. set_unfold. tauto.
Qed.

Lemma snoc_not_self {A} (l : list A) (x : A) : l ≠ l ++ [x].
Proof.
  intros H%(f_equal length). rewrite length_app in H. simpl in H. lia.
Qed.

(** C10. When [post_equivalent] inserts a record, the six optional columns
    of the record are the request's values for [owner], [PN], [PV], [PR],
    [task] and [outhash_siginfo] (NULL for a key the request lacks); the
    INSERT binds these keys as the request has them and, besides them, only
    [method], [outhash], [taskhash], [unihash] and [created]; and a request
    that agrees on the four required and the six optional keys gives the
    same answer, table and statements, whatever other keys it carries. *)
Theorem optional_keys_whitelist (data : gmap string string) (now : Z)
    (tbl : list Row) (r : Row) :
  table_of (post_equivalent data now tbl) = tbl ++ [r] →
  (owner r = data !! "owner" ∧ PN r = data !! "PN" ∧ PV r = data !! "PV" ∧
   PR r = data !! "PR" ∧ task r = data !! "task" ∧
   outhash_siginfo r = data !! "outhash_siginfo") ∧
  (∃ cols, InsertTask cols ∈ log_of (post_equivalent data now tbl) ∧
     (∀ k, k ∈ optional_keys → cols !! k = Text <$> data !! k) ∧
     (∀ k, is_Some (cols !! k) →
        k ∈ ["method"; "outhash"; "taskhash"; "unihash"; "created"]
        ∨ (k ∈ optional_keys ∧ is_Some (data !! k)))) ∧
  ∀ data',
    (∀ k, k ∈ required_keys ++ optional_keys → data' !! k = data !! k) →
    post_equivalent data' now tbl = post_equivalent data now tbl.
Proof.
  intros Htbl. split; [|split; [|intros data'; apply post_equivalent_ext]].
  - destruct (post_equivalent_outcome data now tbl)
      as [| | |m h t u c|m h t u]; unfold table_of in Htbl; simpl in Htbl;
      try (by apply snoc_not_self in Htbl);
      apply app_inj_tail in Htbl as [_ <-]; by simpl.
  - destruct (post_equivalent_outcome data now tbl)
      as [| | |m h t u c|m h t u]; unfold table_of in Htbl; simpl in Htbl;
      try (by apply snoc_not_self in Htbl); unfold log_of; simpl.
    + exists (insert_data_of data now m h t (unihash c)). split_and!.
      * set_solver.
      * intros k Hk. by apply insert_data_of_optional.
      * apply insert_data_of_keys.
    + exists (insert_data_of data now m h t u). split_and!.
      * set_solver.
      * intros k Hk. by apply insert_data_of_optional.
      * apply insert_data_of_keys.
Qed.

Lemma optional_keys_whitelist_witness :
  table_of (post_equivalent post1 10 [])
    = [] ++ [new_row post1 10 [] "m" "h" "t1" "u1"] ∧
  (owner (new_row post1 10 [] "m" "h" "t1" "u1") = post1 !! "owner" ∧
   PN (new_row post1 10 [] "m" "h" "t1" "u1") = post1 !! "PN" ∧
   PV (new_row post1 10 [] "m" "h" "t1" "u1") = post1 !! "PV" ∧
   PR (new_row post1 10 [] "m" "h" "t1" "u1") = post1 !! "PR" ∧
   task (new_row post1 10 [] "m" "h" "t1" "u1") = post1 !! "task" ∧
   outhash_siginfo (new_row post1 10 [] "m" "h" "t1" "u1")
     = post1 !! "outhash_siginfo") ∧
  (∃ cols, InsertTask cols ∈ log_of (post_equivalent post1 10 []) ∧
     (∀ k, k ∈ optional_keys → cols !! k = Text <$> post1 !! k) ∧
     (∀ k, is_Some (cols !! k) →
        k ∈ ["method"; "outhash"; "taskhash"; "unihash"; "created"]
        ∨ (k ∈ optional_keys ∧ is_Some (post1 !! k)))) ∧
  ∀ data',
    (∀ k, k ∈ required_keys ++ optional_keys → data' !! k = post1 !! k) →
    post_equivalent data' 10 [] = post_equivalent post1 10 [].
Proof.
  split; [reflexivity|].
  apply (optional_keys_whitelist post1 10 []
           (new_row post1 10 [] "m" "h" "t1" "u1")).
  reflexivity.
Defined.

(** The key [extra] of [post1] is not one of the six: dropping it from the
    request changes nothing, and the stored row has the owner only. *)
Example extra_key_ignored :
  post_equivalent (delete "extra" post1) 10 [] = post_equivalent post1 10 [] ∧
  table_of (post_equivalent post1 10 []) =
    [ {| rowid := 1; method := "m"; outhash := "h"; taskhash := "t1";
         unihash := "u1"; created := 10; owner := Some "alice";
         PN := None; PV := None; PR := None; task := None;
         outhash_siginfo := None |} ].
Proof. split; reflexivity. Qed.

(** * Further properties of the handlers *)

(** ** A fresh outhash, and posting twice *)

Lemma no_class_no_candidate m h t tbl :
  (∀ x, x ∈ tbl → ¬ in_class m h x) → candidate m h t tbl = None.
Proof.
  intros Hno. destruct (candidate m h t tbl) as [c|] eqn:Hc; [|done].
  apply candidate_Some in Hc as (Hin & Hcl & _). by destruct (Hno c Hin).
Qed.

(** X1. Case A: when the table holds no record of the request's
    (method, outhash), [post_equivalent] executes the SELECT, one INSERT and
    the commit, appends one record for the request's triple with the
    caller's unihash and the clock reading, and answers with the caller's
    unihash. *)
Theorem post_equivalent_case_A (data : gmap string string) (now : Z)
    (tbl : list Row) (m h t u : string) :
  data !! "method" = Some m → data !! "outhash" = Some h →
  data !! "taskhash" = Some t → data !! "unihash" = Some u →
  (∀ x, x ∈ tbl → ¬ in_class m h x) →
  post_equivalent data now tbl =
    (Ok {| e_taskhash := t; e_method := m; e_unihash := u |},
     tbl ++ [new_row data now tbl m h t u],
     [SelectOuthash m h t; InsertTask (insert_data_of data now m h t u); Commit]).
Proof.
  intros Hm Hh Ht Hu Hno.
  pose proof (no_class_no_candidate m h t tbl Hno) as Hc.
  rewrite (post_equivalent_insert data now tbl m h t Hm Hh Ht u Hu).
  - by rewrite Hc.
  - intros r. by rewrite Hc.
Qed.

Lemma post_equivalent_case_A_witness :
  post_equivalent post3 30 table1 =
    (Ok {| e_taskhash := "t1"; e_method := "m"; e_unihash := "u3" |},
     table1 ++ [new_row post3 30 table1 "m" "h2" "t1" "u3"],
     [SelectOuthash "m" "h2" "t1";
      InsertTask (insert_data_of post3 30 "m" "h2" "t1" "u3"); Commit]).
Proof.
  apply (post_equivalent_case_A post3 30 table1 "m" "h2" "t1" "u3").
  - reflexivity.
  - reflexivity.
  - reflexivity.
  - reflexivity.
  - intros x ->%list_elem_of_singleton [_ Hh]. discriminate Hh.
Defined.

Lemma post_equivalent_key_error (data : gmap string string) :
  data !! "method" = None ∨ data !! "outhash" = None
  ∨ data !! "taskhash" = None →
  ∃ k, ∀ now' tbl',
    post_equivalent data now' tbl' = (Raise (KeyError k), tbl', []).
Proof.
  intros Hk.
  destruct (data !! "method") as [m|] eqn:Hm; cycle 1.
  { exists "method". intros now' tbl'. unfold post_equivalent. db_unfold.
    by rewrite Hm. }
  destruct (data !! "outhash") as [h|] eqn:Hh; cycle 1.
  { exists "outhash". intros now' tbl'. unfold post_equivalent. db_unfold.
    by rewrite Hm, Hh. }
  destruct (data !! "taskhash") as [t|] eqn:Ht; cycle 1.
  { exists "taskhash". intros now' tbl'. unfold post_equivalent. db_unfold.
    by rewrite Hm, Hh, Ht. }
  by destruct_or!.
Qed.

(** The record a successful [post_equivalent] answers from. *)
Lemma post_equivalent_answer_row data now tbl m h t e :
  data !! "method" = Some m → data !! "outhash" = Some h →
  data !! "taskhash" = Some t →
  result_of (post_equivalent data now tbl) = Ok e →
  ∃ x, x ∈ table_of (post_equivalent data now tbl) ∧ is_triple m h t x ∧
       project x = e ∧
       (x ∈ tbl ∨ (∀ y, y ∈ tbl → ¬ is_triple m h t y)).
Proof.
  intros Hm Hh Ht.
  destruct (post_equivalent_outcome data now tbl)
    as [k Hk Hnone| |m' h' t' r ? ? ? Hc Hr|m' h' t' u' c ? ? ? ? Hc Hne
       |m' h' t' u' ? ? ? ? Hc]; simplify_eq; unfold result_of, table_of; simpl;
    intros He; simplify_eq.
  - destruct (candidate_exact _ _ _ _ _ Hc eq_refl) as (Hin & Htr & _).
    exists r. by split_and!; [..|left].
  - exists (new_row data now tbl m h t (unihash c)).
    split_and!; [apply elem_of_app; right; by left|done|done|right].
    by destruct (candidate_other _ _ _ _ _ Hc Hne).
  - exists (new_row data now tbl m h t u').
    split_and!; [apply elem_of_app; right; by left|done|done|right].
    intros y Hy (? & ? & _). by eapply candidate_None.
Qed.

(** X2. Posting the same request a second time, at any later clock reading,
    gives the answer of the first call and leaves the table as the first
    call left it; this holds for every request, rejected ones included. *)
Theorem post_equivalent_idempotent (data : gmap string string) (now now' : Z)
    (tbl : list Row) :
  result_of (post_equivalent data now' (table_of (post_equivalent data now tbl)))
    = result_of (post_equivalent data now tbl) ∧
  table_of (post_equivalent data now' (table_of (post_equivalent data now tbl)))
    = table_of (post_equivalent data now tbl).
Proof.
  assert (∀ m h t u,
    data !! "method" = Some m → data !! "outhash" = Some h →
    data !! "taskhash" = Some t →
    (∀ y, y ∈ tbl → ¬ is_triple m h t y) →
    post_equivalent data now' (tbl ++ [new_row data now tbl m h t u]) =
      (Ok {| e_taskhash := t; e_method := m; e_unihash := u |},
       tbl ++ [new_row data now tbl m h t u], [SelectOuthash m h t])) as Hnew.
  { intros m h t u Hm Hh Ht Hno.
    destruct (candidate_of_triple m h t
                (tbl ++ [new_row data now tbl m h t u])
                (new_row data now tbl m h t u)) as (r & Hc & Hr);
      [apply elem_of_app; right; by left|done|].
    rewrite (post_equivalent_exact data now' _ m h t Hm Hh Ht r Hc Hr).
    destruct (candidate_exact _ _ _ _ _ Hc Hr) as (Hrin & Hrt & _).
    apply elem_of_app in Hrin as [Hrin| ->%list_elem_of_singleton]; [|done].
    by destruct (Hno r Hrin). }
  destruct (decide (data !! "method" = None ∨ data !! "outhash" = None
                    ∨ data !! "taskhash" = None)) as [Hmiss|Hall].
  { destruct (post_equivalent_key_error data Hmiss) as [k Hk]. by rewrite !Hk. }
  destruct (post_equivalent_outcome data now tbl)
    as [k Hk Hnone|m h t Hm Hh Ht Hu Hno|m h t r Hm Hh Ht Hc Hr
       |m h t u c Hm Hh Ht Hu Hc Hne|m h t u Hm Hh Ht Hu Hc];
    unfold table_of at 1 3 4; unfold result_of at 2; simpl.
  - destruct Hall. set_unfold in Hk. destruct_or!; subst; auto.
  - rewrite (post_equivalent_no_unihash data now' tbl m h t Hm Hh Ht Hu);
      [done|].
    intros r Hc Hr.
    destruct (candidate_exact _ _ _ _ _ Hc Hr) as (Hin & Htr & _).
    by destruct (Hno r Hin).
  - by rewrite (post_equivalent_exact data now' tbl m h t Hm Hh Ht r Hc Hr).
  - rewrite (Hnew m h t (unihash c) Hm Hh Ht); [done|].
    by destruct (candidate_other _ _ _ _ _ Hc Hne).
  - rewrite (Hnew m h t u Hm Hh Ht); [done|].
    intros y Hy (? & ? & _). by eapply candidate_None.
Qed.

Lemma elem_of_run reqs tbl x : x ∈ tbl → x ∈ run reqs tbl.
Proof.
  intros [i Hi]%list_elem_of_lookup_1.
  eapply list_elem_of_lookup_2, run_prefix, Hi.
Qed.

(** X3. Once [post_equivalent] has answered a triple on a table reached by
    sequential service, every later call for the same triple, after any
    further requests and whatever unihash or other fields it carries, gets
    the same answer. *)
Theorem merge_answer_permanent (tbl : list Row) (data data' : gmap string string)
    (now now' : Z) (reqs : list Request) (m h t : string) (e : Equiv) :
  reachable tbl →
  data !! "method" = Some m → data !! "outhash" = Some h →
  data !! "taskhash" = Some t →
  data' !! "method" = Some m → data' !! "outhash" = Some h →
  data' !! "taskhash" = Some t →
  result_of (post_equivalent data now tbl) = Ok e →
  result_of (post_equivalent data' now'
               (run reqs (table_of (post_equivalent data now tbl)))) = Ok e.
Proof.
  intros Hreach Hm Hh Ht Hm' Hh' Ht' Hres.
  destruct (post_equivalent_answer_row data now tbl m h t e Hm Hh Ht Hres)
    as (x & Hx & Hxt & <- & _).
  set (tbl2 := run reqs (table_of (post_equivalent data now tbl))).
  assert (reachable tbl2) as Hreach2.
  { apply reachable_run. by apply (reachable_serve (POST data now)). }
  assert (x ∈ tbl2) as Hx2 by by apply elem_of_run.
  destruct (candidate_of_triple m h t tbl2 x Hx2 Hxt) as (r & Hc & Hr).
  rewrite (post_equivalent_exact data' now' tbl2 m h t Hm' Hh' Ht' r Hc Hr).
  unfold result_of. simpl. do 2 f_equal.
  destruct (candidate_exact _ _ _ _ _ Hc Hr) as (Hrin & (? & ? & ?) & _).
  destruct Hxt as (? & ? & ?).
  apply (unique_triples_elem tbl2 r x); [by apply reachable_unique|done..|].
  unfold same_triple. split_and!; congruence.
Qed.

Lemma merge_answer_permanent_witness :
  result_of (post_equivalent (<["unihash" := "u9"]> post2) 40
               (run [POST post3 30; GET query1]
                  (table_of (post_equivalent post2 20 table1))))
    = Ok {| e_taskhash := "t2"; e_method := "m"; e_unihash := "u1" |}.
Proof.
  apply (merge_answer_permanent table1 post2 (<["unihash" := "u9"]> post2)
           20 40 [POST post3 30; GET query1] "m" "h" "t2").
  - apply (reachable_serve (POST post1 10) []), reachable_empty.
  - reflexivity.
  - reflexivity.
  - reflexivity.
  - reflexivity.
  - reflexivity.
  - reflexivity.
  - reflexivity.
Defined.

(** X4. Run without another handler interleaving between its SELECT and
    its INSERT, a write call that carries the four required fields is
    answered.  The answer repeats the request's taskhash and method; the
    table then holds a record of the request's triple with the answered
    unihash; and if the classes of the table had one unihash each before
    the call, every record of the request's (method, outhash) now carries
    the answered unihash. *)
Theorem merge_answer_recorded (data : gmap string string) (now : Z)
    (tbl : list Row) (m h t u : string) :
  data !! "method" = Some m → data !! "outhash" = Some h →
  data !! "taskhash" = Some t → data !! "unihash" = Some u →
  ∃ e x,
    result_of (post_equivalent data now tbl) = Ok e ∧
    e_taskhash e = t ∧ e_method e = m ∧
    x ∈ table_of (post_equivalent data now tbl) ∧ is_triple m h t x ∧
    unihash x = e_unihash e ∧
    (converged tbl →
     ∀ y, y ∈ table_of (post_equivalent data now tbl) → in_class m h y →
          unihash y = e_unihash e).
Proof.
  intros Hm Hh Ht Hu.
  destruct (post_equivalent_records_triple data now tbl m h t u Hm Hh Ht Hu)
    as (e & _ & Hres & _).
  destruct (post_equivalent_answer_row data now tbl m h t e Hm Hh Ht Hres)
    as (x & Hx & Hxt & <- & _).
  exists (project x), x. destruct Hxt as (Hxm & Hxh & Hxt).
  split_and!; try done.
  intros Hcv y Hy [Hym Hyh].
  apply (post_equivalent_converged data now tbl Hcv); congruence.
Qed.

Lemma merge_answer_recorded_witness :
  ∃ e x,
    result_of (post_equivalent post2 20 table1) = Ok e ∧
    e_taskhash e = "t2" ∧ e_method e = "m" ∧
    x ∈ table_of (post_equivalent post2 20 table1) ∧
    is_triple "m" "h" "t2" x ∧
    unihash x = e_unihash e ∧
    (converged table1 →
     ∀ y, y ∈ table_of (post_equivalent post2 20 table1) →
          in_class "m" "h" y → unihash y = e_unihash e).
Proof.
  apply (merge_answer_recorded post2 20 table1 "m" "h" "t2" "u2");
    reflexivity.
Defined.

(** ** Errors of the lookup *)

(** X5. [get_equivalent] raises exactly when the query lacks [method] or
    [taskhash]; the exception is the [KeyError] of the first missing key
    ([method] before [taskhash]), raised before any statement is sent to
    the database, with the table untouched. *)
Theorem get_equivalent_key_error (query : gmap string string) (tbl : list Row) :
  (query !! "method" = None →
   get_equivalent query tbl = (Raise (KeyError "method"), tbl, [])) ∧
  (is_Some (query !! "method") → query !! "taskhash" = None →
   get_equivalent query tbl = (Raise (KeyError "taskhash"), tbl, [])) ∧
  (∀ e, result_of (get_equivalent query tbl) = Raise e →
        ∃ k, k ∈ ["method"; "taskhash"] ∧ query !! k = None ∧
             get_equivalent query tbl = (Raise (KeyError k), tbl, [])) ∧
  (is_Some (query !! "method") → is_Some (query !! "taskhash") →
   ∃ d, result_of (get_equivalent query tbl) = Ok d).
Proof.
  unfold get_equivalent. db_unfold.
  destruct (query !! "method") as [m|] eqn:Hm;
    destruct (query !! "taskhash") as [t|] eqn:Ht; simpl;
    unfold result_of; simpl.
  - split_and!; [done|done|done|eauto].
  - split_and!; [done|done| |by intros _ [? ?]].
    intros e [= <-]. exists "taskhash". split_and!; [set_solver|done..].
  - split_and!; [done|by intros [? ?]| |by intros [? ?]].
    intros e [= <-]. exists "method". split_and!; [set_solver|done..].
  - split_and!; [done|by intros [? ?]| |by intros [? ?]].
    intros e [= <-]. exists "method". split_and!; [set_solver|done..].
Qed.

Lemma get_equivalent_key_error_witness :
  delete "method" query1 !! "method" = None ∧
  get_equivalent (delete "method" query1) table1
    = (Raise (KeyError "method"), table1, []).
Proof.
  split; [reflexivity|].
  apply (get_equivalent_key_error (delete "method" query1) table1).
  reflexivity.
Defined.

(** ** Where records come from *)

Lemma serve_cases req tbl :
  serve req tbl = tbl ∨
  ∃ data now m h t u u',
    req = POST data now ∧
    data !! "method" = Some m ∧ data !! "outhash" = Some h ∧
    data !! "taskhash" = Some t ∧ data !! "unihash" = Some u ∧
    (∀ y, y ∈ tbl → ¬ is_triple m h t y) ∧
    serve req tbl = tbl ++ [new_row data now tbl m h t u'] ∧
    (u' = u ∧ (∀ y, y ∈ tbl → ¬ in_class m h y)
     ∨ ∃ c, c ∈ tbl ∧ in_class m h c ∧ u' = unihash c).
Proof.
  destruct req as [query|data now]; simpl.
  - left. apply readonly_get_equivalent.
  - destruct (post_equivalent_outcome data now tbl)
      as [| | |m h t u c Hm Hh Ht Hu Hc Hne|m h t u Hm Hh Ht Hu Hc];
      unfold table_of; simpl; try by left.
    + right.
      destruct (candidate_other _ _ _ _ _ Hc Hne) as [(Hin & Hcl & _) Hno].
      exists data, now, m, h, t, u, (unihash c). split_and!; try done.
      right. eauto.
    + right. exists data, now, m, h, t, u, u. split_and!; try done.
      * intros y Hy (? & ? & _). by eapply candidate_None.
      * left. split; [done|]. by apply (candidate_None m h t).
Qed.

Lemma serve_provenance req tbl r :
  r ∈ serve req tbl →
  r ∈ tbl ∨
  ∃ data now m h t u,
    req = POST data now ∧
    data !! "method" = Some m ∧ data !! "outhash" = Some h ∧
    data !! "taskhash" = Some t ∧ data !! "unihash" = Some u ∧
    (∀ y, y ∈ tbl → ¬ is_triple m h t y) ∧
    (r = new_row data now tbl m h t u ∧ (∀ y, y ∈ tbl → ¬ in_class m h y)
     ∨ ∃ c, c ∈ tbl ∧ in_class m h c ∧
            r = new_row data now tbl m h t (unihash c)).
Proof.
  destruct req as [query|data now]; simpl.
  - rewrite readonly_get_equivalent. by left.
  - destruct (post_equivalent_outcome data now tbl)
      as [| | |m h t u c Hm Hh Ht Hu Hc Hne|m h t u Hm Hh Ht Hu Hc];
      unfold table_of; simpl; try by left.
    + intros [Hr| ->%list_elem_of_singleton]%elem_of_app; [by left|right].
      destruct (candidate_other _ _ _ _ _ Hc Hne) as [(Hin & Hcl & _) Hno].
      exists data, now, m, h, t, u. split_and!; try done. right. eauto.
    + intros [Hr| ->%list_elem_of_singleton]%elem_of_app; [by left|right].
      exists data, now, m, h, t, u. split_and!; try done.
      * intros y Hy (? & ? & _). by eapply candidate_None.
      * left. split; [done|]. by apply (candidate_None m h t).
Qed.

(** X6. Every record of the table after a run of requests either was in
    the table before, or was written by a POST of the run: its method,
    outhash and taskhash are that request's, its [created] is the clock
    reading of that request, and its six optional columns are that
    request's optional fields. *)
Theorem record_provenance (reqs : list Request) (tbl : list Row) (r : Row) :
  r ∈ run reqs tbl →
  r ∈ tbl ∨
  ∃ data now,
    POST data now ∈ reqs ∧
    data !! "method" = Some (method r) ∧ data !! "outhash" = Some (outhash r) ∧
    data !! "taskhash" = Some (taskhash r) ∧ created r = now ∧
    owner r = data !! "owner" ∧ PN r = data !! "PN" ∧ PV r = data !! "PV" ∧
    PR r = data !! "PR" ∧ task r = data !! "task" ∧
    outhash_siginfo r = data !! "outhash_siginfo".
Proof.
  unfold run. revert tbl.
  induction reqs as [|req reqs IH]; intros tbl; simpl; [by left|].
  intros [Hr|(data & now & Hin & Hrest)]%IH.
  - apply serve_provenance in Hr
      as [Hr|(data & now & m & h & t & u & -> & Hm & Hh & Ht & Hu & _ & Hnew)];
      [by left|right].
    exists data, now. split; [by left|].
    destruct Hnew as [[-> _]|(c & _ & _ & ->)]; by simpl.
  - right. exists data, now. split; [by right|done].
Qed.

Lemma record_provenance_witness :
  new_row post2 20 table1 "m" "h" "t2" "u1" ∈ run [POST post2 20] table1 ∧
  (new_row post2 20 table1 "m" "h" "t2" "u1" ∈ table1 ∨
   ∃ data now,
     POST data now ∈ [POST post2 20] ∧
     data !! "method" = Some "m" ∧ data !! "outhash" = Some "h" ∧
     data !! "taskhash" = Some "t2" ∧ 20 = now ∧
     post2 !! "owner" = data !! "owner" ∧ post2 !! "PN" = data !! "PN" ∧
     post2 !! "PV" = data !! "PV" ∧ post2 !! "PR" = data !! "PR" ∧
     post2 !! "task" = data !! "task" ∧
     post2 !! "outhash_siginfo" = data !! "outhash_siginfo").
Proof.
  assert (new_row post2 20 table1 "m" "h" "t2" "u1" ∈ run [POST post2 20] table1)
    as Hin by (right; left).
  split; [exact Hin|].
  exact (record_provenance [POST post2 20] table1
           (new_row post2 20 table1 "m" "h" "t2" "u1") Hin).
Defined.

(** X7. A taskhash never written is not found: if the table holds no
    record of [(m, t)] and no POST of the run carries method [m] with
    taskhash [t], then after the run [get_equivalent] for [(m, t)] answers
    null, without raising. *)
Theorem never_written_not_found (reqs : list Request) (tbl : list Row)
    (query : gmap string string) (m t : string) :
  query !! "method" = Some m → query !! "taskhash" = Some t →
  (∀ x, x ∈ tbl → ¬ (method x = m ∧ taskhash x = t)) →
  (∀ data now, POST data now ∈ reqs →
     ¬ (data !! "method" = Some m ∧ data !! "taskhash" = Some t)) →
  get_equivalent query (run reqs tbl)
    = (Ok None, run reqs tbl, [SelectTaskhash m t]).
Proof.
  intros Hm Ht Hold Hreqs.
  assert (∀ x, x ∈ run reqs tbl → ¬ (method x = m ∧ taskhash x = t)) as Hnone.
  { unfold run. revert tbl Hold.
    induction reqs as [|req reqs IH]; intros tbl Hold; simpl; [done|].
    apply IH.
    - intros data now Hin. apply (Hreqs data now). by right.
    - intros x [Hx|(data & now & m' & h' & t' & u' & -> & Hm' & _ & Ht'
                    & _ & _ & Hnew)]%serve_provenance; [by apply Hold|].
      intros [Hxm Hxt]. apply (Hreqs data now); [by left|].
      destruct Hnew as [[-> _]|(c & _ & _ & ->)]; simpl in *; by subst. }
  rewrite (get_equivalent_run _ _ _ _ Hm Ht). do 2 f_equal.
  pose proof (select_taskhash_head m t (run reqs tbl)) as Hhead.
  destruct (head (select_taskhash m t (run reqs tbl))) as [r|]; [|done].
  destruct Hhead as (Hin & HP & _). by destruct (Hnone r Hin).
Qed.

Lemma never_written_not_found_witness :
  get_equivalent query2 (run [POST post1 10; POST post3 30] [])
    = (Ok None, run [POST post1 10; POST post3 30] [], [SelectTaskhash "m" "t2"]).
Proof.
  apply (never_written_not_found [POST post1 10; POST post3 30] []
           query2 "m" "t2").
  - reflexivity.
  - reflexivity.
  - intros x Hx. by apply elem_of_nil in Hx.
  - intros data now Hin [_ Ht].
    apply elem_of_cons in Hin as [Hin|Hin]; [|apply list_elem_of_singleton in Hin];
      injection Hin as -> _; discriminate Ht.
Defined.

Lemma run_snoc reqs req tbl : run (reqs ++ [req]) tbl = serve req (run reqs tbl).
Proof. unfold run. by rewrite foldl_app. Qed.

(** X8. The server invents no unihash: in a table reached from the empty
    table, the unihash of every record was supplied as [unihash] by a POST
    of the run for the same method and outhash. *)
Theorem unihash_provenance (reqs : list Request) (r : Row) :
  r ∈ run reqs [] →
  ∃ data now,
    POST data now ∈ reqs ∧
    data !! "method" = Some (method r) ∧ data !! "outhash" = Some (outhash r) ∧
    data !! "unihash" = Some (unihash r).
Proof.
  revert r. induction reqs as [|req reqs IH] using rev_ind; intros r.
  { intros Hr. by apply elem_of_nil in Hr. }
  rewrite run_snoc.
  intros [Hr|(data & now & m & h & t & u & -> & Hm & Hh & Ht & Hu & _ & Hnew)]
    %serve_provenance.
  - destruct (IH r Hr) as (data & now & Hin & Hrest).
    exists data, now. split; [|done]. apply elem_of_app. by left.
  - destruct Hnew as [[-> _]|(c & Hc & [Hcm Hch] & ->)].
    + exists data, now. split; [|done]. apply elem_of_app. right. by left.
    + destruct (IH c Hc) as (data' & now' & Hin & Hm' & Hh' & Hu').
      exists data', now'. simpl. split; [|by subst].
      apply elem_of_app. by left.
Qed.

Lemma unihash_provenance_witness :
  new_row post2 20 table1 "m" "h" "t2" "u1"
    ∈ run [POST post1 10; POST post2 20] [] ∧
  ∃ data now,
    POST data now ∈ [POST post1 10; POST post2 20] ∧
    data !! "method" = Some "m" ∧ data !! "outhash" = Some "h" ∧
    data !! "unihash" = Some "u1".
Proof.
  assert (new_row post2 20 table1 "m" "h" "t2" "u1"
            ∈ run [POST post1 10; POST post2 20] []) as Hin by (right; left).
  split; [exact Hin|].
  exact (unihash_provenance [POST post1 10; POST post2 20]
           (new_row post2 20 table1 "m" "h" "t2" "u1") Hin).
Defined.

(** ** Stability of the lookup *)

Lemma order_by_snoc_head leb (l : list Row) r :
  l ≠ [] → (∀ x, x ∈ l → leb x r = true) →
  head (order_by leb (l ++ [r])) = head (order_by leb l).
Proof.
  unfold order_by. rewrite foldr_app. cbn [foldr insert_sorted].
  induction l as [|a l IH]; [done|]. intros _ Hle. cbn [foldr].
  rewrite !head_insert_sorted.
  destruct l as [|b l].
  - cbn [foldr head]. rewrite (Hle a) by left. done.
  - rewrite IH; [done|done|]. intros x Hx. apply Hle. by right.
Qed.

Lemma select_taskhash_snoc m t tbl r :
  (∀ x, x ∈ tbl → created x ≤ created r) →
  is_Some (head (select_taskhash m t tbl)) →
  head (select_taskhash m t (tbl ++ [r])) = head (select_taskhash m t tbl).
Proof.
  intros Hle Hsome. unfold select_taskhash in *. rewrite filter_app.
  rewrite (filter_cons _ r), filter_nil. case_decide; [|by rewrite app_nil_r].
  apply order_by_snoc_head.
  - intros Hnil. rewrite Hnil in Hsome. by destruct Hsome.
  - intros x [_ Hx]%list_elem_of_filter. apply Z.leb_le. by apply Hle.
Qed.

Lemma serve_created req tbl :
  serve req tbl = tbl ∨
  ∃ data now r, req = POST data now ∧ serve req tbl = tbl ++ [r] ∧
                created r = now.
Proof.
  destruct req as [query|data now]; simpl.
  - left. apply readonly_get_equivalent.
  - destruct (post_equivalent_outcome data now tbl); unfold table_of; simpl;
      try (by left); right; by eexists _, _, _.
Qed.

(** X9. While the clock moves forward, an answer of the lookup is final:
    if [get_equivalent] answers a record for a query, it gives the same
    answer after any further requests. *)
Theorem lookup_answer_stable (reqs : list Request) (tbl : list Row)
    (query : gmap string string) (e : Equiv) :
  monotone_clock tbl reqs →
  result_of (get_equivalent query tbl) = Ok (Some e) →
  result_of (get_equivalent query (run reqs tbl)) = Ok (Some e).
Proof.
  unfold run. revert tbl.
  induction reqs as [|req reqs IH]; intros tbl; simpl; [done|].
  intros [Hclock Hrest] Hres. apply IH; [done|].
  destruct (serve_created req tbl) as [->|(data & now & r & -> & -> & Hr)];
    [done|].
  destruct (query !! "method") as [m|] eqn:Hm; cycle 1.
  { unfold get_equivalent in Hres. db_unfold. by rewrite Hm in Hres. }
  destruct (query !! "taskhash") as [t|] eqn:Ht; cycle 1.
  { unfold get_equivalent in Hres. db_unfold. by rewrite Hm, Ht in Hres. }
  rewrite (get_equivalent_run query tbl m t Hm Ht) in Hres.
  rewrite (get_equivalent_run query (tbl ++ [r]) m t Hm Ht).
  unfold result_of in *. simpl in *.
  rewrite select_taskhash_snoc; [done| |].
  { intros x Hx. rewrite Hr. specialize (Hclock x Hx). lia. }
  destruct (head (select_taskhash m t tbl)); [eauto|done].
Qed.

Lemma lookup_answer_stable_witness :
  monotone_clock table1 [POST post3 30; POST post2 40] ∧
  result_of (get_equivalent query1 (run [POST post3 30; POST post2 40] table1))
    = Ok (Some {| e_taskhash := "t1"; e_method := "m"; e_unihash := "u1" |}).
Proof.
  assert (monotone_clock table1 [POST post3 30; POST post2 40]) as Hclock.
  { simpl. split_and!; [| |done]; intros x Hx; set_unfold in Hx;
      destruct_or?; subst; simpl; lia. }
  split; [exact Hclock|].
  apply (lookup_answer_stable [POST post3 30; POST post2 40] table1 query1 _
           Hclock).
  reflexivity.
Defined.

(** With a clock that ran backwards the answer does change: the second
    observation of [t1], under another outhash and stamped earlier than
    the first, takes over the lookup. *)
Example lookup_answer_clock_backwards :
  result_of (get_equivalent query1 table1)
    = Ok (Some {| e_taskhash := "t1"; e_method := "m"; e_unihash := "u1" |}) ∧
  result_of (get_equivalent query1 (run [POST post3 5] table1))
    = Ok (Some {| e_taskhash := "t1"; e_method := "m"; e_unihash := "u3" |}).
Proof. split; reflexivity. Qed.

(** ** Independence of classes *)

Lemma candidate_snoc_other m h t tbl r :
  ¬ in_class m h r → candidate m h t (tbl ++ [r]) = candidate m h t tbl.
Proof.
  intros Hr. unfold candidate, select_outhash. rewrite filter_app.
  rewrite (filter_cons _ r), filter_nil.
  rewrite decide_False by done. by rewrite app_nil_r.
Qed.

Lemma post_equivalent_result_candidate data now tbl1 tbl2 m h t :
  data !! "method" = Some m → data !! "outhash" = Some h →
  data !! "taskhash" = Some t →
  candidate m h t tbl1 = candidate m h t tbl2 →
  result_of (post_equivalent data now tbl1)
    = result_of (post_equivalent data now tbl2).
Proof.
  intros Hm Hh Ht Hc.
  destruct (candidate m h t tbl2) as [c|] eqn:Hc2.
  - destruct (decide (taskhash c = t)) as [Heq|Hne].
    { by rewrite !(post_equivalent_exact data now _ m h t Hm Hh Ht c). }
    destruct (data !! "unihash") as [u|] eqn:Hu.
    + rewrite !(post_equivalent_insert data now _ m h t Hm Hh Ht u Hu);
        [by rewrite Hc, Hc2|intros r; rewrite ?Hc, ?Hc2; by intros [= <-]..].
    + rewrite !(post_equivalent_no_unihash data now _ m h t Hm Hh Ht Hu);
        [done|intros r; rewrite ?Hc, ?Hc2; by intros [= <-]..].
  - destruct (data !! "unihash") as [u|] eqn:Hu.
    + rewrite !(post_equivalent_insert data now _ m h t Hm Hh Ht u Hu);
        [by rewrite Hc, Hc2|intros r; by rewrite ?Hc, ?Hc2..].
    + rewrite !(post_equivalent_no_unihash data now _ m h t Hm Hh Ht Hu);
        [done|intros r; by rewrite ?Hc, ?Hc2..].
Qed.

(** X10. Classes do not influence each other: the answer of
    [post_equivalent] for a request of [(m, h)] is the same before and
    after any run of requests none of whose POSTs carries method [m] with
    outhash [h]; in particular writes under another method never change
    it. *)
Theorem merge_class_independent (reqs : list Request) (tbl : list Row)
    (data : gmap string string) (now : Z) (m h : string) :
  data !! "method" = Some m → data !! "outhash" = Some h →
  (∀ data' now', POST data' now' ∈ reqs →
     data' !! "method" ≠ Some m ∨ data' !! "outhash" ≠ Some h) →
  result_of (post_equivalent data now (run reqs tbl))
    = result_of (post_equivalent data now tbl).
Proof.
  intros Hm Hh. unfold run. revert tbl.
  induction reqs as [|req reqs IH]; intros tbl Hreqs; simpl; [done|].
  rewrite IH by (intros data' now' Hin; apply (Hreqs data' now'); by right).
  destruct (data !! "taskhash") as [t|] eqn:Ht; cycle 1.
  { destruct (post_equivalent_key_error data) as [k Hk]; [by right; right|].
    by rewrite !Hk. }
  apply (post_equivalent_result_candidate data now _ _ m h t Hm Hh Ht).
  destruct (serve_cases req tbl)
    as [->|(data' & now' & m' & h' & t' & u' & u'' & -> & Hm' & Hh' & _ & _
            & _ & -> & _)]; [done|].
  apply candidate_snoc_other. intros [Hrm Hrh]. simpl in *.
  destruct (Hreqs data' now') as [Hne|Hne]; [by left|congruence..].
Qed.

Lemma merge_class_independent_witness :
  result_of (post_equivalent post3 50 (run [POST post2 20; GET query1] table1))
    = result_of (post_equivalent post3 50 table1).
Proof.
  apply (merge_class_independent [POST post2 20; GET query1] table1 post3 50
           "m" "h2").
  - reflexivity.
  - reflexivity.
  - intros data' now' Hin. right. intros Hh.
    apply elem_of_cons in Hin as [Hin|Hin];
      [|apply list_elem_of_singleton in Hin; discriminate Hin].
    injection Hin as -> _. discriminate Hh.
Defined.

Lemma select_taskhash_snoc_other m t tbl r :
  ¬ (method r = m ∧ taskhash r = t) →
  select_taskhash m t (tbl ++ [r]) = select_taskhash m t tbl.
Proof.
  intros Hr. unfold select_taskhash. rewrite filter_app.
  rewrite (filter_cons _ r), filter_nil.
  rewrite decide_False by done. by rewrite app_nil_r.
Qed.

(** X11. The answer of [get_equivalent] for [(m, t)], with its statements,
    is the same before and after any run of requests none of whose POSTs
    carries method [m] with taskhash [t], whatever the clock does. *)
Theorem lookup_independent (reqs : list Request) (tbl : list Row)
    (query : gmap string string) (m t : string) :
  query !! "method" = Some m → query !! "taskhash" = Some t →
  (∀ data now, POST data now ∈ reqs →
     data !! "method" ≠ Some m ∨ data !! "taskhash" ≠ Some t) →
  result_of (get_equivalent query (run reqs tbl))
    = result_of (get_equivalent query tbl) ∧
  log_of (get_equivalent query (run reqs tbl))
    = log_of (get_equivalent query tbl).
Proof.
  intros Hm Ht. unfold run. revert tbl.
  induction reqs as [|req reqs IH]; intros tbl Hreqs; simpl; [done|].
  destruct (IH (serve req tbl)) as [-> ->].
  { intros data now Hin. apply (Hreqs data now). by right. }
  rewrite !(get_equivalent_run query _ m t Hm Ht).
  unfold result_of, log_of. simpl. split; [|done]. do 2 f_equal.
  destruct (serve_cases req tbl)
    as [->|(data & now & m' & h' & t' & u' & u'' & -> & Hm' & _ & Ht' & _
            & _ & -> & _)]; [done|].
  rewrite select_taskhash_snoc_other; [done|].
  intros [Hrm Hrt]. simpl in *.
  destruct (Hreqs data now) as [Hne|Hne]; [by left|congruence..].
Qed.

Lemma lookup_independent_witness :
  result_of (get_equivalent query2 (run [POST post3 5; POST post1 7] table2))
    = result_of (get_equivalent query2 table2) ∧
  log_of (get_equivalent query2 (run [POST post3 5; POST post1 7] table2))
    = log_of (get_equivalent query2 table2).
Proof.
  apply (lookup_independent [POST post3 5; POST post1 7] table2 query2
           "m" "t2").
  - reflexivity.
  - reflexivity.
  - intros data now Hin. right. intros Ht.
    apply elem_of_cons in Hin as [Hin|Hin];
      [|apply list_elem_of_singleton in Hin];
      injection Hin as -> _; discriminate Ht.
Defined.

(** ** The uniqueness constraint under stale fetches *)

Lemma add_entry_unique data row now tbl :
  unique_triples tbl → unique_triples (table_of (add_entry data row now tbl)).
Proof.
  intros Hu.
  destruct (data !! "unihash") as [u|] eqn:Hun; cycle 1.
  { unfold add_entry. db_unfold. by rewrite Hun. }
  destruct (data !! "method") as [m|] eqn:Hm; cycle 1.
  { unfold add_entry. db_unfold. by rewrite Hun, Hm. }
  destruct (data !! "outhash") as [h|] eqn:Hh; cycle 1.
  { unfold add_entry. db_unfold. by rewrite Hun, Hm, Hh. }
  destruct (data !! "taskhash") as [t|] eqn:Ht; cycle 1.
  { unfold add_entry. db_unfold. by rewrite Hun, Hm, Hh, Ht. }
  rewrite (add_entry_run data now tbl m h t Hm Hh Ht row u Hun). simpl.
  case_decide as Hex; [done|]. unfold table_of. simpl.
  apply unique_triples_snoc; [done|].
  intros x Hx Hs. apply Hex, Exists_exists. eauto.
Qed.

(** X13. The uniqueness constraint holds whatever the interleaving: the
    part of [post_equivalent] after the fetch, run with any fetched row,
    however stale, on any table with at most one record per triple, leaves
    a table with at most one record per triple. *)
Theorem stale_fetch_keeps_triples_unique (data : gmap string string)
    (row : option Equiv) (now : Z) (tbl : list Row) :
  unique_triples tbl →
  unique_triples (table_of (post_equivalent_after_fetch data row now tbl)).
Proof.
  intros Hu. unfold post_equivalent_after_fetch.
  destruct row as [r|]; [|by apply add_entry_unique].
  db_unfold. destruct (data !! "taskhash") as [t|] eqn:Ht; [|done]. simpl.
  case_decide; [|done].
  pose proof (add_entry_unique data (Some r) now tbl Hu) as Hadd.
  by destruct (add_entry data (Some r) now tbl) as [[? ?] ?].
Qed.

Lemma stale_fetch_keeps_triples_unique_witness :
  unique_triples table2 ∧
  unique_triples
    (table_of (post_equivalent_after_fetch post3 None 30 table2)) ∧
  unique_triples
    (table_of (post_equivalent_after_fetch post1 None 30 table2)).
Proof.
  assert (unique_triples table2) as Hu.
  { apply reachable_unique.
    apply (reachable_serve (POST post2 20)),
      (reachable_serve (POST post1 10) []), reachable_empty. }
  split; [exact Hu|]. split.
  - exact (stale_fetch_keeps_triples_unique post3 None 30 table2 Hu).
  - exact (stale_fetch_keeps_triples_unique post1 None 30 table2 Hu).
Defined.
